(** * Iterative Krylov solvers of cupyx.scipy.sparse.linalg._iterative

    A shallow embedding of [cg] and [gmres] (src/cupyx/scipy/sparse/linalg/
    _iterative.py).  The array runtime the solvers call (cupy, numpy and
    scipy.linalg.lstsq) is an interface, [ArrayLib]; the two Python functions
    are written over it in a small writer-and-exception monad whose log
    records every operator application, callback invocation and residual test
    in program order. *)

From Stdlib Require Import PrimFloat String Ascii ZArith List Bool Lia.
Import ListNotations.
Open Scope Z_scope.

Set Implicit Arguments.

(** ** Exceptions

    One constructor per [raise] site of the source, plus the exceptions of the
    runtime that the control flow of the two functions can reach. *)

Inductive exn : Type :=
| ValueError_square (shape : list Z)      (* 'expected square matrix (shape: {})' *)
| TypeError_dtype (c : ascii)             (* 'unsupprted dtype (actual: {})' *)
| ValueError_b                            (* 'b has incompatible dimensins' *)
| ValueError_x0                           (* 'x0 has incompatible dimensins' *)
| ValueError_precond       (* 'matrix and preconditioner have different shapes' *)
| ValueError_callback_type (s : string)   (* 'Unknow callback_type: {}' *)
| UnboundLocalError (name : string)       (* a local variable read before assignment *)
| ValueError_negative_dims                (* cupy.empty with a negative dimension *)
| IndexError_column                       (* V[:, 0] on an array with no column *)
| LstsqError.                             (* scipy.linalg.lstsq raising *)

(** The error taxonomy of the specification (section 7), read on the
    exceptions of the code: the shape checks raise ValueError. *)

Inductive error_kind : Type :=
| ShapeError | UnsupportedScalar | ConfigurationError | RuntimeFailure.

Definition kind_of (e : exn) : error_kind :=
  match e with
  | ValueError_square _ | ValueError_b | ValueError_x0 | ValueError_precond =>
      ShapeError
  | TypeError_dtype _ => UnsupportedScalar
  | ValueError_callback_type _ => ConfigurationError
  | UnboundLocalError _ | ValueError_negative_dims | IndexError_column | LstsqError =>
      RuntimeFailure
  end.

Definition is_setup_error (e : exn) : bool :=
  match kind_of e with
  | RuntimeFailure => false
  | _ => true
  end.

(** ** The array runtime *)

Class ArrayLib : Type := {
  scalar : Type;                  (* an element of an array of dtype A.dtype *)
  real : Type;                    (* a Python float or a real 0-d array *)
  operand : Type;                 (* cupy.ndarray or spmatrix, used as A or M *)
  op_shape : operand -> list Z;   (* .shape; .ndim is its length *)
  op_dtype : operand -> ascii;    (* .dtype.char *)
  matmul : operand -> list scalar -> list scalar;   (* A @ x *)
  szero : scalar;
  sadd : scalar -> scalar -> scalar;
  ssub : scalar -> scalar -> scalar;
  smul : scalar -> scalar -> scalar;
  sdiv : scalar -> scalar -> scalar;
  of_real : real -> scalar;       (* a real stored into an array of A.dtype *)
  astype : ascii -> scalar -> scalar;               (* elementwise cast *)
  dotc : list scalar -> list scalar -> scalar;      (* cupy.dot(u.conj(), v) *)
  norm : list scalar -> real;                       (* cupy.linalg.norm *)
  empty_like : list scalar -> list scalar;          (* cupy.empty_like *)
  gemv : list (list scalar) -> list scalar -> list scalar;
                                  (* V @ y, V given by its columns *)
  gemvH : list (list scalar) -> list scalar -> list scalar;
                                  (* V.conj().T @ u, V given by its columns *)
  lstsq : list (list scalar) -> list scalar -> option (list scalar);
                                  (* scipy.linalg.lstsq(H, e)[0], H by columns;
                                     None when it raises *)
  rmul : real -> real -> real;
  rdiv : real -> real -> real;
  rleb : real -> real -> bool;    (* <= *)
  rltb : real -> real -> bool;    (* < *)
  req0 : real -> bool;            (* == 0 *)
  norm_zeros : forall n, req0 (norm (repeat szero n)) = true;
  astype_zero : forall c, astype c szero = szero;
  empty_like_length : forall v, length (empty_like v) = length v
}.

(** A dense array passed as [b] or [x0]: its shape and its elements in C
    order. *)

Record ndarray {L : ArrayLib} : Type := {
  arr_shape : list Z;
  arr_data : list scalar
}.

Section Vectors.
Context {L : ArrayLib}.

Definition vec : Type := list scalar.

Fixpoint zip_with (f : scalar -> scalar -> scalar) (u v : vec) : vec :=
  match u, v with
  | a :: u', b :: v' => f a b :: zip_with f u' v'
  | _, _ => []
  end.

(* u + v and u - v on arrays of one length *)
Definition vadd (u v : vec) : vec := zip_with sadd u v.
Definition vsub (u v : vec) : vec := zip_with ssub u v.
(* a * v and v / a for a 0-d a *)
Definition vscale (a : scalar) (v : vec) : vec := map (smul a) v.
Definition vdiv (v : vec) (a : scalar) : vec := map (fun s => sdiv s a) v.

(* x.astype(dtype).ravel() *)
Definition astype_ravel (c : ascii) (a : ndarray) : vec :=
  map (astype c) (arr_data a).

(* Python's max(a, b): b replaces a only when b > a *)
Definition py_max (a b : real) : real := if rltb a b then b else a.

Definition shape_eqb (s t : list Z) : bool :=
  if list_eq_dec Z.eq_dec s t then true else false.

Definition ndim (A : operand) : nat := length (op_shape A).
Definition shape0 (A : operand) : Z := nth 0 (op_shape A) 0.
Definition shape1 (A : operand) : Z := nth 1 (op_shape A) 0.

(* dtype.char in 'fdFD' *)
Definition supported_dtype (c : ascii) : bool :=
  existsb (Ascii.eqb c) ["f"; "d"; "F"; "D"]%char.

(* s == (n,) or s == (n, 1) *)
Definition vector_shape (n : Z) (s : list Z) : bool :=
  shape_eqb s [n] || shape_eqb s [n; 1].
End Vectors.

(** ** The log

    The effects of a call that the specification speaks of: the applications
    of A and of M, and the calls of the callback.  Three more entries record where
    the control is, with the values of the locals there; they stand for no
    effect of the source: each evaluation of [resid <= atol], the end of a
    cg iteration (line 88) and a gmres cycle boundary (line 191). *)

Inductive cb_arg {L : ArrayLib} : Type :=
| CbVec (x : vec)
| CbReal (r : real).

Inductive event {L : ArrayLib} : Type :=
| EvMatvec (v : vec)              (* matvec(v): the operator A applied *)
| EvPsolve (v : vec)              (* psolve(v) with M given: M applied *)
| EvCallback (a : cb_arg)         (* callback(a) *)
| EvTest (resid tol : real)       (* an evaluation of resid <= atol *)
| EvIterate (x : vec)             (* cg, line 88: an iteration is completed *)
| EvCycle (x mx : vec) (r_norm : real).
                                  (* gmres, line 191: a restart-cycle boundary *)

(** ** The monad: a log of events and a result or an exception *)

Inductive outcome (X : Type) : Type :=
| Returns (x : X)
| Raises (e : exn)
| OutOfFuel.

Arguments Raises {X} e.
Arguments OutOfFuel {X}.

Section Monad.
Context {L : ArrayLib}.

Definition run (X : Type) : Type := (list event * outcome X)%type.

Definition ret {X} (x : X) : run X := ([], Returns x).
Definition raise {X} (e : exn) : run X := ([], Raises e).
Definition out_of_fuel {X} : run X := ([], OutOfFuel).
Definition emit (ev : event) : run unit := ([ev], Returns tt).

Definition bind {X Y} (m : run X) (f : X -> run Y) : run Y :=
  match m with
  | (t, Returns x) => let (t', r) := f x in (t ++ t', r)
  | (t, Raises e) => (t, Raises e)
  | (t, OutOfFuel) => (t, OutOfFuel)
  end.
End Monad.

Notation "x <- m ;; k" := (bind m (fun x => k))
(at level 61, m at next level, right associativity).
Notation "m ;;; k" := (bind m (fun _ => k))
(at level 61, right associativity).

(** ** Arguments of a call

    One record for both functions; [cg] has no [restart] and no
    [callback_type] parameter and reads neither field.  A callback is a user
    function run for its effect: the record says whether one is supplied, and
    each call is an [EvCallback] of the log. *)

Record solver_args {L : ArrayLib} : Type := {
  arg_A : operand;
  arg_b : ndarray;
  arg_x0 : option ndarray;
  arg_tol : real;
  arg_restart : option Z;
  arg_maxiter : option Z;
  arg_M : option operand;
  arg_callback : bool;
  arg_atol : option real;
  arg_callback_type : option string
}.

Section Solvers.
Context {L : ArrayLib}.

(** *** Setup shared by the two functions *)

(* lines 36-43 and 138-145 *)
Definition check_system (A : operand) (b : ndarray) : run (Z * vec) :=
  if negb (Nat.eqb (ndim A) 2) || negb (shape0 A =? shape1 A)
  then raise (ValueError_square (op_shape A))
  else if negb (supported_dtype (op_dtype A))
  then raise (TypeError_dtype (op_dtype A))
  else
    let n := shape0 A in
    if negb (vector_shape n (arr_shape b))
    then raise ValueError_b
    else ret (n, astype_ravel (op_dtype A) b).

(* lines 54-59 and 155-160 *)
Definition initial_guess (A : operand) (n : Z) (x0 : option ndarray) : run vec :=
  match x0 with
  | None => ret (repeat szero (Z.to_nat n))
  | Some x0 =>
      if negb (vector_shape n (arr_shape x0))
      then raise ValueError_x0
      else ret (astype_ravel (op_dtype A) x0)
  end.

(* lines 60-61 and 161-162 *)
Definition default_maxiter (n : Z) (maxiter : option Z) : Z :=
  match maxiter with
  | None => n * 10
  | Some m => m
  end.

(* lines 63 and 174 *)
Definition matvec (A : operand) (x : vec) : run vec :=
  emit (EvMatvec x) ;;; ret (matmul A x).

(** Lines 65-68 and 176-179, the two definitions of psolve.  With M
    unspecified psolve returns its argument itself, so in gmres mx shares x;
    x is updated in place at line 215 only, after the last read of mx in its
    pass, so the sharing does not show in the values computed. *)
Definition psolve (M : option operand) (x : vec) : run vec :=
  match M with
  | None => ret x
  | Some M => emit (EvPsolve x) ;;; ret (matmul M x)
  end.

(* lines 69-70 and 180-181 *)
Definition check_precond (A : operand) (M : option operand) : run unit :=
  match M with
  | None => ret tt
  | Some M =>
      if negb (shape_eqb (op_shape A) (op_shape M))
      then raise ValueError_precond
      else ret tt
  end.

(* resid <= atol *)
Definition test (resid tol : real) : run bool :=
  emit (EvTest resid tol) ;;; ret (rleb resid tol).

(** *** cg *)

(* lines 47-53 *)
Definition cg_atol (tol : real) (atol : option real) (b_norm : real) : real :=
  match atol with
  | None => if req0 b_norm then tol else rmul tol b_norm
  | Some atol => py_max atol (rmul tol b_norm)
  end.

(** The locals of the loop.  [p] is unassigned before the first iteration and
    is read only when [iters <> 0]; [rho] starts as the integer 0 and is
    divided by only when [iters <> 0]; [resid] is unassigned until the first
    iteration ends. *)

Record cg_state : Type := {
  st_x : vec;
  st_r : vec;
  st_p : vec;
  st_rho : scalar;
  st_iters : Z;
  st_resid : option real
}.

(* lines 72-74 *)
Definition cg_init (A : operand) (b x : vec) : run cg_state :=
  Ax <- matvec A x ;;
  ret {| st_x := x; st_r := vsub b Ax; st_p := []; st_rho := szero;
         st_iters := 0; st_resid := None |}.

(* lines 76-92: one pass through the loop body and its residual test *)
Definition cg_body (A : operand) (M : option operand) (callback : bool)
    (atol : real) (st : cg_state) : run (cg_state * bool) :=
  z <- psolve M (st_r st) ;;
  let rho1 := st_rho st in
  let rho := dotc (st_r st) z in
  let p := if st_iters st =? 0
           then z
           else vadd z (vscale (sdiv rho rho1) (st_p st)) in
  q <- matvec A p ;;
  let alpha := sdiv rho (dotc p q) in
  let x := vadd (st_x st) (vscale alpha p) in
  let r := vsub (st_r st) (vscale alpha q) in
  let iters := st_iters st + 1 in
  emit (EvIterate x) ;;;
  (if callback then emit (EvCallback (CbVec x)) else ret tt) ;;;
  let resid := norm r in
  stop <- test resid atol ;;
  ret ({| st_x := x; st_r := r; st_p := p; st_rho := rho;
          st_iters := iters; st_resid := Some resid |}, stop).

(* lines 75-93: while iters < maxiter: body; if resid <= atol: break *)
Fixpoint cg_loop (fuel : nat) (A : operand) (M : option operand)
    (callback : bool) (maxiter : Z) (atol : real) (st : cg_state)
    : run cg_state :=
  if st_iters st <? maxiter then
    match fuel with
    | O => out_of_fuel
    | S fuel' =>
        pass <- cg_body A M callback atol st ;;
        if snd pass then ret (fst pass)
        else cg_loop fuel' A M callback maxiter atol (fst pass)
    end
  else ret st.

(* lines 72-93 *)
Definition cg_iterate (A : operand) (M : option operand) (callback : bool)
    (maxiter : Z) (atol : real) (b x : vec) : run cg_state :=
  st0 <- cg_init A b x ;;
  cg_loop (Z.to_nat maxiter) A M callback maxiter atol st0.

(* lines 95-97 *)
Definition cg_info (maxiter : Z) (atol : real) (st : cg_state) : run Z :=
  if st_iters st =? maxiter then
    match st_resid st with
    | None => raise (UnboundLocalError "resid")
    | Some resid =>
        ok <- test resid atol ;;
        ret (if negb ok then st_iters st else 0)
    end
  else ret 0.

Definition cg (a : solver_args) : run (vec * Z) :=
  nb <- check_system (arg_A a) (arg_b a) ;;
  let n := fst nb in
  let b := snd nb in
  if n =? 0 then ret (empty_like b, 0)
  else
    let b_norm := norm b in
    let atol := cg_atol (arg_tol a) (arg_atol a) b_norm in
    x <- initial_guess (arg_A a) n (arg_x0 a) ;;
    let maxiter := default_maxiter n (arg_maxiter a) in
    check_precond (arg_A a) (arg_M a) ;;;
    st <- cg_iterate (arg_A a) (arg_M a) (arg_callback a) maxiter atol b x ;;
    info <- cg_info maxiter atol st ;;
    ret (st_x st, info).

(** *** gmres *)

(* lines 151-154, reached only when b_norm != 0 *)
Definition gmres_atol (tol : real) (atol : option real) (b_norm : real) : real :=
  match atol with
  | None => rmul tol b_norm
  | Some atol => py_max atol (rmul tol b_norm)
  end.

(* lines 163-165 *)
Definition clamp_restart (n : Z) (restart : option Z) : Z :=
  Z.min (match restart with None => 20 | Some r => r end) n.

(* lines 167-172 *)
Definition resolve_callback_type (callback : bool) (callback_type : option string)
    : run (option string) :=
  let ct := match callback_type with
            | None => "pr_norm"%string
            | Some s => s
            end in
  if negb (String.eqb ct "x" || String.eqb ct "pr_norm")
  then raise (ValueError_callback_type ct)
  else ret (if callback then Some ct else None).

(* lines 192-195 *)
Definition gmres_callback (callback_type : option string) (iters : Z)
    (mx : vec) (r_norm b_norm : real) : run unit :=
  match callback_type with
  | Some s =>
      if String.eqb s "x" then emit (EvCallback (CbVec mx))
      else if String.eqb s "pr_norm" && (0 <? iters)
      then emit (EvCallback (CbReal (rdiv r_norm b_norm)))
      else ret tt
  | None => ret tt
  end.

(** Lines 202-209, the Arnoldi steps [j, j+1, ..., restart-1] of one cycle.
    [V] holds the columns written so far in this cycle (0..j) and [H] the
    columns 0..j-1 of the Hessenberg matrix.  The arrays V, H and e of the
    source live across cycles, but a cycle writes every entry it reads:
    column 0 of V and e[0] at lines 198-199, column j+1 of V and the entries
    H[0..j+1, j] at step j; the entries of H below the subdiagonal and
    e[1..] keep the zeros of lines 184-185. *)
Fixpoint arnoldi (steps j : nat) (A : operand) (M : option operand)
    (restart : Z) (V H : list vec) : run (list vec * list vec) :=
  match steps with
  | O => ret (V, H)
  | S steps' =>
      z <- psolve M (nth j V []) ;;
      u <- matvec A z ;;
      let h := gemvH (firstn (S j) V) u in
      let u := vsub u (gemv (firstn (S j) V) h) in
      let hnext := of_real (norm u) in
      let Hj := h ++ hnext :: repeat szero (Z.to_nat restart - S j) in
      let V := if Z.of_nat j + 1 <? restart then V ++ [vdiv u hnext] else V in
      arnoldi steps' (S j) A M restart V (H ++ [Hj])
  end.

(* lines 198-216: one restart cycle, from the residual r to the new x and iters *)
Definition gmres_cycle (A : operand) (M : option operand) (restart : Z)
    (x r : vec) (r_norm : real) (iters : Z) : run (vec * Z) :=
  if restart =? 0 then raise IndexError_column
  else
    let V0 := vdiv r (of_real r_norm) in
    let e := of_real r_norm :: repeat szero (Z.to_nat restart) in
    VH <- arnoldi (Z.to_nat restart) 0 A M restart [V0] [] ;;
    match lstsq (snd VH) e with
    | None => raise LstsqError
    | Some y => ret (vadd x (gemv (fst VH) y), iters + restart)
    end.

(* lines 188-216: while True: ... if r_norm <= atol or iters >= maxiter: break *)
Fixpoint gmres_loop (fuel : nat) (A : operand) (M : option operand)
    (callback_type : option string) (b : vec) (b_norm : real)
    (maxiter : Z) (atol : real) (restart : Z) (x : vec) (iters : Z)
    : run (vec * real * Z) :=
  mx <- psolve M x ;;
  Amx <- matvec A mx ;;
  let r := vsub b Amx in
  let r_norm := norm r in
  emit (EvCycle x mx r_norm) ;;;
  gmres_callback callback_type iters mx r_norm b_norm ;;;
  ok <- test r_norm atol ;;
  if ok || (maxiter <=? iters) then ret (mx, r_norm, iters)
  else
    match fuel with
    | O => out_of_fuel
    | S fuel' =>
        next <- gmres_cycle A M restart x r r_norm iters ;;
        gmres_loop fuel' A M callback_type b b_norm maxiter atol restart
          (fst next) (snd next)
    end.

(* lines 218-220 *)
Definition gmres_info (maxiter : Z) (atol r_norm : real) (iters : Z) : run Z :=
  if iters =? maxiter then
    ok <- test r_norm atol ;;
    ret (if negb ok then iters else 0)
  else ret 0.

Definition gmres (a : solver_args) : run (vec * Z) :=
  nb <- check_system (arg_A a) (arg_b a) ;;
  let n := fst nb in
  let b := snd nb in
  if n =? 0 then ret (empty_like b, 0)
  else
    let b_norm := norm b in
    if req0 b_norm then ret (b, 0)
    else
      let atol := gmres_atol (arg_tol a) (arg_atol a) b_norm in
      x <- initial_guess (arg_A a) n (arg_x0 a) ;;
      let maxiter := default_maxiter n (arg_maxiter a) in
      let restart := clamp_restart n (arg_restart a) in
      ct <- resolve_callback_type (arg_callback a) (arg_callback_type a) ;;
      check_precond (arg_A a) (arg_M a) ;;;
      (* lines 183-185: cupy.empty((n, restart)) *)
      (if restart <? 0 then raise ValueError_negative_dims else ret tt) ;;;
      fin <- gmres_loop (Z.to_nat maxiter) (arg_A a) (arg_M a) ct b b_norm
               maxiter atol restart x 0 ;;
      let mx := fst (fst fin) in
      let r_norm := snd (fst fin) in
      let iters := snd fin in
      info <- gmres_info maxiter atol r_norm iters ;;
      ret (mx, info).
End Solvers.

(** ** Reading the log *)

Section Log.
Context {L : ArrayLib}.

(* the arguments of the callback invocations, in order *)
Definition callbacks (t : list event) : list cb_arg :=
  flat_map (fun ev => match ev with EvCallback a => [a] | _ => [] end) t.

(* the iterates x at the end of each completed cg iteration *)
Definition iterates (t : list event) : list vec :=
  flat_map (fun ev => match ev with EvIterate x => [x] | _ => [] end) t.

(* the (x, mx, r_norm) of each gmres cycle boundary *)
Definition cycles (t : list event) : list (vec * vec * real) :=
  flat_map (fun ev => match ev with
                      | EvCycle x mx r_norm => [(x, mx, r_norm)]
                      | _ => []
                      end) t.

(* the tolerances the residual tests compared against *)
Definition tolerances (t : list event) : list real :=
  flat_map (fun ev => match ev with EvTest _ tol => [tol] | _ => [] end) t.

(* the applications of A (matvec) and of a supplied M (psolve) *)
Definition is_application (ev : event) : bool :=
  match ev with
  | EvMatvec _ | EvPsolve _ => true
  | _ => false
  end.

Definition applications (t : list event) : list event := filter is_application t.

Definition last_cycle (t : list event) : option (vec * vec * real) :=
  last (map Some (cycles t)) None.

(* how many times A, and a supplied M, were applied *)
Definition is_matvec (ev : event) : bool :=
  match ev with
  | EvMatvec _ => true
  | _ => false
  end.

Definition is_psolve (ev : event) : bool :=
  match ev with
  | EvPsolve _ => true
  | _ => false
  end.

Definition count_matvec (t : list event) : nat := length (filter is_matvec t).
Definition count_psolve (t : list event) : nat := length (filter is_psolve t).

(* the applications of M that one call of psolve makes: one when M is supplied *)
Definition per_pass (M : option operand) : nat :=
  match M with
  | None => 0
  | Some _ => 1
  end.
End Log.

(** ** The contract of section 4.1 on the arguments *)

Section Validity.
Context {L : ArrayLib}.

(* the product of a shape: the number of elements of an array *)
Definition size_of (shape : list Z) : Z := fold_right Z.mul 1 shape.

Definition well_formed (a : ndarray) : Prop :=
  length (arr_data a) = Z.to_nat (size_of (arr_shape a)).

Definition square_matrix (A : operand) : bool :=
  Nat.eqb (ndim A) 2 && (shape0 A =? shape1 A).

Definition valid_system (A : operand) (b : ndarray) : bool :=
  square_matrix A && supported_dtype (op_dtype A)
  && vector_shape (shape0 A) (arr_shape b).

Definition valid_guess (n : Z) (x0 : option ndarray) : bool :=
  match x0 with
  | None => true
  | Some x0 => vector_shape n (arr_shape x0)
  end.

Definition valid_precond (A : operand) (M : option operand) : bool :=
  match M with
  | None => true
  | Some M => shape_eqb (op_shape A) (op_shape M)
  end.

Definition valid_callback_type (callback_type : option string) : bool :=
  match callback_type with
  | None => true
  | Some s => String.eqb s "x" || String.eqb s "pr_norm"
  end.

Definition valid_cg_args (a : solver_args) : bool :=
  valid_system (arg_A a) (arg_b a)
  && valid_guess (shape0 (arg_A a)) (arg_x0 a)
  && valid_precond (arg_A a) (arg_M a).

Definition valid_gmres_args (a : solver_args) : bool :=
  valid_cg_args a && valid_callback_type (arg_callback_type a).

(* the vectors a valid call starts from *)
Definition rhs (a : solver_args) : vec :=
  astype_ravel (op_dtype (arg_A a)) (arg_b a).

Definition guess (a : solver_args) : vec :=
  match arg_x0 a with
  | None => repeat szero (Z.to_nat (shape0 (arg_A a)))
  | Some x0 => astype_ravel (op_dtype (arg_A a)) x0
  end.

Definition budget (a : solver_args) : Z :=
  default_maxiter (shape0 (arg_A a)) (arg_maxiter a).

End Validity.

(** ** The algorithms in the words of the specification *)

Section Specification.
Context {L : ArrayLib}.

(* M.apply, the identity when M is unspecified *)
Definition apply_precond (M : option operand) (v : vec) : vec :=
  match M with
  | None => v
  | Some M => matmul M v
  end.

(** Section 4.1, in the words of the specification: the effective absolute
    tolerance. *)
Definition effective_tolerance (tol : real) (atol : option real) (b_norm : real)
    : real :=
  match atol with
  | None => if req0 b_norm then tol else rmul tol b_norm
  | Some atol => py_max atol (rmul tol b_norm)
  end.

(** Section 4.2, in the words of the specification: steps 1-6 of iteration k
    on the iterate (x, r, p_prev, rho_prev). *)
Record cg_iterate_state : Type := {
  it_x : vec;
  it_r : vec;
  it_p : vec;
  it_rho : scalar
}.

Definition cg_spec_step (A : operand) (M : option operand) (first : bool)
    (s : cg_iterate_state) : cg_iterate_state :=
  let z := apply_precond M (it_r s) in
  let rho := dotc (it_r s) z in
  let beta := sdiv rho (it_rho s) in
  let p := if first then z else vadd z (vscale beta (it_p s)) in
  let q := matmul A p in
  let alpha := sdiv rho (dotc p q) in
  {| it_x := vadd (it_x s) (vscale alpha p);
     it_r := vsub (it_r s) (vscale alpha q);
     it_p := p;
     it_rho := rho |}.

(** Steps 7-8: count the iteration; stop when the norm of r is at most the
    effective tolerance or the count reaches maxiter ([left] iterations are
    left of the budget). *)
Fixpoint cg_spec_run (A : operand) (M : option operand) (tol : real)
    (left k : nat) (s : cg_iterate_state) : nat * cg_iterate_state :=
  match left with
  | O => (k, s)
  | S left' =>
      let s' := cg_spec_step A M (Nat.eqb k 0) s in
      if rleb (norm (it_r s')) tol then (S k, s')
      else cg_spec_run A M tol left' (S k) s'
  end.

(* the applications of M and A that iteration k performs, in order *)
Definition cg_spec_applies (A : operand) (M : option operand) (first : bool)
    (s : cg_iterate_state) : list event :=
  match M with
  | None => []
  | Some _ => [EvPsolve (it_r s)]
  end ++ [EvMatvec (it_p (cg_spec_step A M first s))].

(* the applications of a whole run, in order, after the one of r0 *)
Fixpoint cg_spec_applications (A : operand) (M : option operand) (tol : real)
    (left k : nat) (s : cg_iterate_state) : list event :=
  match left with
  | O => []
  | S left' =>
      let s' := cg_spec_step A M (Nat.eqb k 0) s in
      cg_spec_applies A M (Nat.eqb k 0) s ++
      (if rleb (norm (it_r s')) tol then []
       else cg_spec_applications A M tol left' (S k) s')
  end.

(* the state the iteration starts from: x0 and r0 = b - A.apply(x0) *)
Definition cg_spec_start (A : operand) (b x0 : vec) : cg_iterate_state :=
  {| it_x := x0; it_r := vsub b (matmul A x0); it_p := []; it_rho := szero |}.

(* the iterate held in the locals of the loop of cg *)
Definition iterate_of (st : cg_state) : cg_iterate_state :=
  {| it_x := st_x st; it_r := st_r st; it_p := st_p st; it_rho := st_rho st |}.
End Specification.

(** ** The passes of the two loops *)

Section Passes.
Context {L : ArrayLib}.
Variables (A : operand) (M : option operand).
Variables (callback : bool) (callback_type : option string).
Variables (b : vec) (b_norm : real) (maxiter : Z) (atol : real).

(* lines 72-74: the state cg enters its loop with *)
Definition cg_start (x : vec) : cg_state :=
  {| st_x := x; st_r := vsub b (matmul A x); st_p := []; st_rho := szero;
     st_iters := 0; st_resid := None |}.

(* the state after one pass of lines 76-91 from [st] *)
Definition cg_next (st : cg_state) : cg_state :=
  let s' := cg_spec_step A M (st_iters st =? 0) (iterate_of st) in
  {| st_x := it_x s'; st_r := it_r s'; st_p := it_p s'; st_rho := it_rho s';
     st_iters := st_iters st + 1; st_resid := Some (norm (it_r s')) |}.

(* the log of that pass, with the test of line 92 *)
Definition cg_pass_log (st : cg_state) : list event :=
  cg_spec_applies A M (st_iters st =? 0) (iterate_of st)
    ++ [EvIterate (st_x (cg_next st))]
    ++ (if callback then [EvCallback (CbVec (st_x (cg_next st)))] else [])
    ++ [EvTest (norm (st_r (cg_next st))) atol].

(* a log of operator applications only *)
Definition quiet (t : list event) : Prop :=
  Forall (fun ev => is_application ev = true) t.

(* lines 192-195: the events of the callback *)
Definition gmres_callback_log (iters : Z) (mx : vec) (r_norm : real)
    : list event :=
  fst (gmres_callback callback_type iters mx r_norm b_norm).

(* lines 189-191: the point mx, the residual and its norm at x *)
Definition gmres_mx (x : vec) : vec := apply_precond M x.
Definition gmres_r (x : vec) : vec := vsub b (matmul A (gmres_mx x)).
Definition gmres_r_norm (x : vec) : real := norm (gmres_r x).

(* the log of lines 189-196 at x *)
Definition gmres_head_log (x : vec) (iters : Z) : list event :=
  fst (psolve M x)
    ++ [EvMatvec (gmres_mx x); EvCycle x (gmres_mx x) (gmres_r_norm x)]
    ++ gmres_callback_log iters (gmres_mx x) (gmres_r_norm x)
    ++ [EvTest (gmres_r_norm x) atol].

(* line 196: the condition of the break *)
Definition gmres_stop (x : vec) (iters : Z) : bool :=
  rleb (gmres_r_norm x) atol || (maxiter <=? iters).

(* what the callback receives at a cycle boundary, by callback_type *)
Definition cb_x (c : vec * vec * real) : cb_arg := CbVec (snd (fst c)).
Definition cb_pr_norm (c : vec * vec * real) : cb_arg :=
  CbReal (rdiv (snd c) b_norm).
End Passes.

(** ** A call of gmres that reaches its loop *)

Section Calls.
Context {L : ArrayLib}.

(* lines 167-172: the callback_type the loop reads *)
Definition resolved_callback_type (a : solver_args) : option string :=
  if arg_callback a
  then Some (match arg_callback_type a with
             | None => "pr_norm"%string
             | Some s => s
             end)
  else None.

Definition gmres_restart (a : solver_args) : Z :=
  clamp_restart (shape0 (arg_A a)) (arg_restart a).

Definition gmres_tol (a : solver_args) : real :=
  gmres_atol (arg_tol a) (arg_atol a) (norm (rhs a)).

(* the loop of a call, from the guess and a count of 0 *)
Definition gmres_call_loop (a : solver_args) : run (vec * real * Z) :=
  gmres_loop (Z.to_nat (budget a)) (arg_A a) (arg_M a)
    (resolved_callback_type a) (rhs a) (norm (rhs a)) (budget a)
    (gmres_tol a) (gmres_restart a) (guess a) 0.

(* the call reaches line 188 *)
Definition reaches_loop (a : solver_args) : Prop :=
  valid_gmres_args a = true /\ shape0 (arg_A a) <> 0 /\
  req0 (norm (rhs a)) = false /\ 0 <= gmres_restart a.

(* the call raises an exception of kind k *)
Definition raises_kind {X} (r : run X) (k : error_kind) : Prop :=
  exists e, snd r = Raises e /\ kind_of e = k.

(** The shape-validation property as section 8 words it: a b whose shape is
    neither (n,) nor (n, 1), n the side of the square A, makes the solver fail
    with ShapeError. *)
Definition rhs_shape_always_shape_error
    (solver : solver_args -> run (vec * Z)) : Prop :=
  forall a : solver_args,
    square_matrix (arg_A a) = true ->
    vector_shape (shape0 (arg_A a)) (arr_shape (arg_b a)) = false ->
    raises_kind (solver a) ShapeError.
End Calls.

(** ** The padding callback of the tests

    [_padwithtens] of tests/cupy_tests/padding_tests/test_pad.py (lines
    172-174 and 182-185), the function handed to [pad] as its mode: it writes
    10 over the two ends of the padded vector.  The first version updates
    [vector] in place and returns None, the second returns it as well; both
    leave the same vector, which is what the function below computes.
    [iaxis] and [kwargs] are not read. *)

Section Padding.
Variable X : Type.
Variable ten : X.       (* the value 10 in the dtype of the vector *)

(** A bound of a slice of step 1 on an array of length n: a negative bound
    counts from the end, and a bound is clipped to [0, n]. *)
Definition slice_bound (n i : Z) : Z :=
  if i <? 0 then Z.max (i + n) 0 else Z.min i n.

(* vector[start:stop] = c, an absent bound being None *)
Definition assign_slice (c : X) (start stop : option Z) (v : list X) : list X :=
  let n := Z.of_nat (length v) in
  let lo := match start with None => 0 | Some i => slice_bound n i end in
  let hi := match stop with None => n | Some i => slice_bound n i end in
  if lo <? hi
  then firstn (Z.to_nat lo) v ++ repeat c (Z.to_nat (hi - lo))
         ++ skipn (Z.to_nat hi) v
  else v.

Definition _padwithtens (vector : list X) (pad_width : Z * Z) : list X :=
  (* vector[:pad_width[0]] = 10 *)
  let vector := assign_slice ten None (Some (fst pad_width)) vector in
  (* vector[-pad_width[1]:] = 10 *)
  assign_slice ten (Some (- snd pad_width)) None vector.
End Padding.

(** ** The runtime at dtype 'd': IEEE binary64 arrays on the kernel's floats

    Dense operands stored by rows.  The reductions (dot, norm, the
    matrix-vector products) sum left to right; on the small systems evaluated
    below every intermediate value is exact, so the order does not matter. *)

Module Float64.

Record dense : Type := {
  d_shape : list Z;
  d_dtype : ascii;
  d_rows : list (list float)
}.

Definition fzero : float := 0%float.

Definition dot (u v : list float) : float :=
  fold_left (fun acc ab => PrimFloat.add acc (PrimFloat.mul (fst ab) (snd ab)))
            (combine u v) fzero.

Definition norm2 (v : list float) : float := PrimFloat.sqrt (dot v v).

Definition dense_matmul (A : dense) (x : list float) : list float :=
  map (fun row => dot row x) (d_rows A).

Fixpoint add_lists (u v : list float) : list float :=
  match u, v with
  | a :: u', b :: v' => PrimFloat.add a b :: add_lists u' v'
  | _, _ => []
  end.

(* V @ y for V given by its columns: the sum of the y_j * V_j *)
Definition cols_gemv (V : list (list float)) (y : list float) : list float :=
  fold_left (fun acc cy => add_lists acc (map (PrimFloat.mul (snd cy)) (fst cy)))
            (combine V y)
            (map (fun _ => fzero) (hd [] V)).

(* V.conj().T @ u for V given by its columns *)
Definition cols_gemvH (V : list (list float)) (u : list float) : list float :=
  map (fun col => dot col u) V.

(* finite: neither an infinity nor a NaN *)
Definition finite (x : float) : bool := PrimFloat.eqb (PrimFloat.sub x x) fzero.

(* eliminate the variable of [pivot_row] from [row] *)
Definition eliminate (k : nat) (pivot_row row : list float) : list float :=
  let f := PrimFloat.div (nth k row fzero) (nth k pivot_row fzero) in
  map (fun pr => PrimFloat.sub (fst pr) (PrimFloat.mul f (snd pr)))
      (combine row pivot_row).

(* Gauss-Jordan elimination on an augmented matrix, no answer on a zero pivot *)
Fixpoint gauss_jordan (steps k : nat) (rows : list (list float))
    : option (list (list float)) :=
  match steps with
  | O => Some rows
  | S steps' =>
      let pivot_row := nth k rows [] in
      if PrimFloat.eqb (nth k pivot_row fzero) fzero then None
      else
        let rows' :=
          map (fun ir => if Nat.eqb (fst ir) k then snd ir
                         else eliminate k pivot_row (snd ir))
              (combine (seq 0 (length rows)) rows) in
        gauss_jordan steps' (S k) rows'
  end.

(** Modelled from the spec: the dense least-squares routine behind
    scipy.linalg.lstsq is not part of the repository; section 6 gives its
    contract, solve_lstsq(matrix, vector) -> vector minimizing the residual
    2-norm.  Here: the normal equations (H^T H) y = H^T e solved by
    Gauss-Jordan elimination, which is that minimizer when H has full column
    rank; like scipy's check_finite it refuses entries that are not finite,
    and it gives no answer on a zero pivot.  The theorems hold for every
    [lstsq]; this one serves the concrete calls below. *)
Definition normal_lstsq (H : list (list float)) (e : list float)
    : option (list float) :=
  if forallb finite (e ++ concat H) then
    let k := length H in
    let rows := map (fun ci => map (fun cj => dot ci cj) H ++ [dot ci e]) H in
    match gauss_jordan k 0 rows with
    | None => None
    | Some rows' =>
        Some (map (fun ir => PrimFloat.div (nth k (snd ir) fzero)
                                           (nth (fst ir) (snd ir) fzero))
                  (combine (seq 0 k) rows'))
    end
  else None.

Lemma dot_zeros_acc (n : nat) :
  fold_left (fun acc ab => PrimFloat.add acc (PrimFloat.mul (fst ab) (snd ab)))
            (combine (repeat fzero n) (repeat fzero n)) fzero = fzero.
Proof.
  induction n as [|n IH]; simpl.
  - reflexivity.
  - exact IH.
Qed.

Lemma norm2_zeros (n : nat) :
  PrimFloat.eqb (norm2 (repeat fzero n)) fzero = true.
Proof.
  unfold norm2, dot. rewrite dot_zeros_acc. reflexivity.
Qed.

Lemma zeros_like_length (v : list float) :
  length (map (fun _ : float => fzero) v) = length v.
Proof.
  induction v as [|a v IH]; simpl; [reflexivity | now rewrite IH].
Qed.

#[global] Instance lib : ArrayLib := {|
  scalar := float;
  real := float;
  operand := dense;
  op_shape := d_shape;
  op_dtype := d_dtype;
  matmul := dense_matmul;
  szero := fzero;
  sadd := PrimFloat.add;
  ssub := PrimFloat.sub;
  smul := PrimFloat.mul;
  sdiv := PrimFloat.div;
  of_real := fun x => x;
  astype := fun _ x => x;
  dotc := dot;
  norm := norm2;
  empty_like := map (fun _ => fzero);
  gemv := cols_gemv;
  gemvH := cols_gemvH;
  lstsq := normal_lstsq;
  rmul := PrimFloat.mul;
  rdiv := PrimFloat.div;
  rleb := PrimFloat.leb;
  rltb := PrimFloat.ltb;
  req0 := fun x => PrimFloat.eqb x fzero;
  norm_zeros := norm2_zeros;
  astype_zero := fun _ => eq_refl;
  empty_like_length := zeros_like_length
|}.

(* the binary64 value of the default tol = 1e-5 *)
Definition tol_default : float := 0x1.4f8b588e368f1p-17%float.

(* a call with the defaults of the signature: tol = 1e-5, the rest None *)
Definition call (A : dense) (b : ndarray) : solver_args := {|
  arg_A := A;
  arg_b := b;
  arg_x0 := None;
  arg_tol := tol_default;
  arg_restart := None;
  arg_maxiter := None;
  arg_M := None;
  arg_callback := false;
  arg_atol := None;
  arg_callback_type := None
|}.

Definition vector (v : list float) : ndarray :=
  {| arr_shape := [Z.of_nat (length v)]; arr_data := v |}.

Definition matrix (c : ascii) (rows : list (list float)) : dense :=
  {| d_shape := [Z.of_nat (length rows); Z.of_nat (length (hd [] rows))];
     d_dtype := c;
     d_rows := rows |}.

End Float64.

(** ** Concrete calls at dtype 'd' *)

Module Examples.
Import Float64.

(* scenario of section 8: A = 2x2 identity, b = [3, 4] *)
Definition identity2 : solver_args :=
  call (matrix "d" [[1; 0]; [0; 1]]%float) (vector [3; 4]%float).

(* a 0x0 system *)
Definition empty_system : solver_args :=
  call {| d_shape := [0; 0]; d_dtype := "d"; d_rows := [] |} (vector []).

(* A = [[2]], b = [0] *)
Definition zero_rhs : solver_args :=
  call (matrix "d" [[2]]%float) (vector [0]%float).

(* the same with an x0 of shape (5,) and callback_type = 'residual' *)
Definition zero_rhs_unchecked : solver_args := {|
  arg_A := matrix "d" [[2]]%float;
  arg_b := vector [0]%float;
  arg_x0 := Some (vector [1; 1; 1; 1; 1]%float);
  arg_tol := tol_default;
  arg_restart := None;
  arg_maxiter := None;
  arg_M := None;
  arg_callback := true;
  arg_atol := None;
  arg_callback_type := Some "residual"%string
|}.

(* A = [[2]], b = [4], maxiter = 0 *)
Definition budget_zero : solver_args := {|
  arg_A := matrix "d" [[2]]%float;
  arg_b := vector [4]%float;
  arg_x0 := None;
  arg_tol := tol_default;
  arg_restart := None;
  arg_maxiter := Some 0;
  arg_M := None;
  arg_callback := false;
  arg_atol := None;
  arg_callback_type := None
|}.

(* A = [[2]], M = [[0.5]], b = [4], with a callback *)
Definition preconditioned (callback_type : option string) : solver_args := {|
  arg_A := matrix "d" [[2]]%float;
  arg_b := vector [4]%float;
  arg_x0 := None;
  arg_tol := tol_default;
  arg_restart := None;
  arg_maxiter := None;
  arg_M := Some (matrix "d" [[0.5]]%float);
  arg_callback := true;
  arg_atol := None;
  arg_callback_type := callback_type
|}.

(* a 2x3 operand *)
Definition not_square : solver_args :=
  call (matrix "d" [[1; 0; 0]; [0; 1; 0]]%float) (vector [1; 1]%float).

(* a square A with a b of shape (3,) *)
Definition bad_rhs : solver_args :=
  call (matrix "d" [[1; 0]; [0; 1]]%float) (vector [1; 1; 1]%float).

(* a square A of dtype int64 ('l') with a b of shape (3,); the call ends at
   the dtype check, before any entry is read *)
Definition int_matrix_bad_rhs : solver_args :=
  call (matrix "l" [[1; 0]; [0; 1]]%float) (vector [1; 1; 1]%float).

(* the cyclic shift of R^3, b = e1, restart = 2, maxiter = 3 *)
Definition shift_restart2 : solver_args := {|
  arg_A := matrix "d" [[0; 0; 1]; [1; 0; 0]; [0; 1; 0]]%float;
  arg_b := vector [1; 0; 0]%float;
  arg_x0 := None;
  arg_tol := tol_default;
  arg_restart := Some 2;
  arg_maxiter := Some 3;
  arg_M := None;
  arg_callback := false;
  arg_atol := None;
  arg_callback_type := None
|}.

(* A = [[2]], b = [4], maxiter = -1 *)
Definition budget_negative : solver_args := {|
  arg_A := matrix "d" [[2]]%float;
  arg_b := vector [4]%float;
  arg_x0 := None;
  arg_tol := tol_default;
  arg_restart := None;
  arg_maxiter := Some (-1);
  arg_M := None;
  arg_callback := false;
  arg_atol := None;
  arg_callback_type := None
|}.

(* A = [[2]], b = [4], started from the solution x0 = [2] *)
Definition exact_guess : solver_args := {|
  arg_A := matrix "d" [[2]]%float;
  arg_b := vector [4]%float;
  arg_x0 := Some (vector [2]%float);
  arg_tol := tol_default;
  arg_restart := None;
  arg_maxiter := None;
  arg_M := None;
  arg_callback := false;
  arg_atol := None;
  arg_callback_type := None
|}.

(* A = [[2]], b = [4], no callback, callback_type = 'residual' *)
Definition unknown_callback_type : solver_args := {|
  arg_A := matrix "d" [[2]]%float;
  arg_b := vector [4]%float;
  arg_x0 := None;
  arg_tol := tol_default;
  arg_restart := None;
  arg_maxiter := None;
  arg_M := None;
  arg_callback := false;
  arg_atol := None;
  arg_callback_type := Some "residual"%string
|}.

(* A = [[2]], b = [4], with an x0 of shape (5,) and an M of shape (2, 2) *)
Definition bad_guess : solver_args := {|
  arg_A := matrix "d" [[2]]%float;
  arg_b := vector [4]%float;
  arg_x0 := Some (vector [1; 1; 1; 1; 1]%float);
  arg_tol := tol_default;
  arg_restart := None;
  arg_maxiter := None;
  arg_M := Some (matrix "d" [[1; 0]; [0; 1]]%float);
  arg_callback := false;
  arg_atol := None;
  arg_callback_type := None
|}.

(* the same with x0 unspecified *)
Definition bad_preconditioner : solver_args := {|
  arg_A := matrix "d" [[2]]%float;
  arg_b := vector [4]%float;
  arg_x0 := None;
  arg_tol := tol_default;
  arg_restart := None;
  arg_maxiter := None;
  arg_M := Some (matrix "d" [[1; 0]; [0; 1]]%float);
  arg_callback := false;
  arg_atol := None;
  arg_callback_type := None
|}.

End Examples.

(** * Properties *)

Section MonadLaws.
Context {L : ArrayLib}.

Lemma bind_ret {X Y} (x : X) (f : X -> run Y) : bind (ret x) f = f x.
Proof. unfold bind, ret. now destruct (f x). Qed.

Lemma bind_raise {X Y} (e : exn) (f : X -> run Y) : bind (raise e) f = raise e.
Proof. reflexivity. Qed.

Lemma bind_returns {X Y} (t : list event) (x : X) (f : X -> run Y) :
  bind (t, Returns x) f = (t ++ fst (f x), snd (f x)).
Proof. unfold bind. now destruct (f x). Qed.

Lemma bind_emit {Y} (ev : event) (f : unit -> run Y) :
  bind (emit ev) f = (ev :: fst (f tt), snd (f tt)).
Proof. unfold emit. now rewrite bind_returns. Qed.

Lemma fst_bind {X Y} (m : run X) (f : X -> run Y) :
  fst (bind m f) =
  fst m ++ match snd m with
           | Returns x => fst (f x)
           | _ => []
           end.
Proof.
  destruct m as [t [x | e |]]; simpl.
  - now destruct (f x).
  - now rewrite app_nil_r.
  - now rewrite app_nil_r.
Qed.

Lemma snd_bind {X Y} (m : run X) (f : X -> run Y) :
  snd (bind m f) =
  match snd m with
  | Returns x => snd (f x)
  | Raises e => Raises e
  | OutOfFuel => OutOfFuel
  end.
Proof.
  destruct m as [t [x | e |]]; simpl; try reflexivity.
  now destruct (f x).
Qed.

Lemma matvec_eq (A : operand) (x : vec) :
  matvec A x = ([EvMatvec x], Returns (matmul A x)).
Proof. reflexivity. Qed.

Lemma psolve_eq (M : option operand) (x : vec) :
  psolve M x =
  (match M with None => [] | Some _ => [EvPsolve x] end,
   Returns (apply_precond M x)).
Proof. now destruct M. Qed.

Lemma test_eq (resid tol : real) :
  test resid tol = ([EvTest resid tol], Returns (rleb resid tol)).
Proof. reflexivity. Qed.
End MonadLaws.

Section Setup.
Context {L : ArrayLib}.

Lemma check_system_valid (A : operand) (b : ndarray) :
  valid_system A b = true ->
  check_system A b = ret (shape0 A, astype_ravel (op_dtype A) b).
Proof.
  unfold valid_system, square_matrix, check_system. intros H.
  apply andb_prop in H as [H Hb]. apply andb_prop in H as [H Hd].
  apply andb_prop in H as [Hn Hs].
  now rewrite Hn, Hs, Hd, Hb.
Qed.

Lemma check_system_not_square (A : operand) (b : ndarray) :
  square_matrix A = false ->
  check_system A b = raise (ValueError_square (op_shape A)).
Proof.
  unfold square_matrix, check_system. intros H.
  apply andb_false_iff in H as [H | H]; rewrite H; simpl; try reflexivity.
  now rewrite orb_true_r.
Qed.

Lemma check_system_bad_dtype (A : operand) (b : ndarray) :
  square_matrix A = true -> supported_dtype (op_dtype A) = false ->
  check_system A b = raise (TypeError_dtype (op_dtype A)).
Proof.
  unfold square_matrix, check_system. intros H Hd.
  apply andb_prop in H as [Hn Hs]. now rewrite Hn, Hs, Hd.
Qed.

Lemma check_system_bad_rhs (A : operand) (b : ndarray) :
  square_matrix A = true -> supported_dtype (op_dtype A) = true ->
  vector_shape (shape0 A) (arr_shape b) = false ->
  check_system A b = raise ValueError_b.
Proof.
  unfold square_matrix, check_system. intros H Hd Hb.
  apply andb_prop in H as [Hn Hs]. now rewrite Hn, Hs, Hd, Hb.
Qed.

Lemma initial_guess_valid (a : solver_args) :
  valid_guess (shape0 (arg_A a)) (arg_x0 a) = true ->
  initial_guess (arg_A a) (shape0 (arg_A a)) (arg_x0 a) = ret (guess a).
Proof.
  unfold valid_guess, initial_guess, guess.
  destruct (arg_x0 a) as [x0|]; [intros -> | intros _]; reflexivity.
Qed.

Lemma check_precond_valid (A : operand) (M : option operand) :
  valid_precond A M = true -> check_precond A M = ret tt.
Proof.
  unfold valid_precond, check_precond.
  destruct M as [M|]; [intros -> | intros _]; reflexivity.
Qed.

Lemma valid_cg_args_inv (a : solver_args) :
  valid_cg_args a = true ->
  valid_system (arg_A a) (arg_b a) = true /\
  valid_guess (shape0 (arg_A a)) (arg_x0 a) = true /\
  valid_precond (arg_A a) (arg_M a) = true.
Proof.
  unfold valid_cg_args. intros H.
  apply andb_prop in H as [H H3]. apply andb_prop in H as [H1 H2]. auto.
Qed.

(** On a system that passes the checks, with n <> 0, [cg] is its iteration
    followed by the computation of info. *)
Lemma cg_valid_eq (a : solver_args) :
  valid_cg_args a = true -> shape0 (arg_A a) <> 0 ->
  cg a =
  (st <- cg_iterate (arg_A a) (arg_M a) (arg_callback a) (budget a)
           (cg_atol (arg_tol a) (arg_atol a) (norm (rhs a))) (rhs a) (guess a) ;;
   info <- cg_info (budget a)
             (cg_atol (arg_tol a) (arg_atol a) (norm (rhs a))) st ;;
   ret (st_x st, info)).
Proof.
  intros Hv Hn. apply valid_cg_args_inv in Hv as (Hs & Hg & Hp).
  unfold cg. rewrite (check_system_valid _ _ Hs), bind_ret. simpl fst; simpl snd.
  apply Z.eqb_neq in Hn. rewrite Hn.
  rewrite (initial_guess_valid _ Hg), bind_ret.
  rewrite (check_precond_valid _ _ Hp), bind_ret.
  reflexivity.
Qed.

Lemma empty_like_empty (v : vec) : length v = 0%nat -> empty_like v = [].
Proof.
  intros H. apply length_zero_iff_nil. now rewrite empty_like_length.
Qed.

Lemma vector_shape_size (n : Z) (s : list Z) :
  vector_shape n s = true -> size_of s = n.
Proof.
  unfold vector_shape, shape_eqb. intros H.
  apply orb_prop in H as [H | H];
    destruct (list_eq_dec Z.eq_dec _ _) as [-> | _]; try discriminate;
    unfold size_of; simpl; lia.
Qed.

Lemma rhs_length (a : solver_args) :
  well_formed (arg_b a) ->
  vector_shape (shape0 (arg_A a)) (arr_shape (arg_b a)) = true ->
  length (rhs a) = Z.to_nat (shape0 (arg_A a)).
Proof.
  unfold well_formed, rhs, astype_ravel. intros Hw Hs.
  now rewrite length_map, Hw, (vector_shape_size _ _ Hs).
Qed.
End Setup.

Section EarlyExits.
Context {L : ArrayLib}.

Lemma rhs_zero (a : solver_args) (n : nat) :
  arr_data (arg_b a) = repeat szero n -> rhs a = repeat szero n.
Proof.
  unfold rhs, astype_ravel. intros ->.
  induction n as [|n IH]; simpl; [reflexivity|].
  now rewrite astype_zero, IH.
Qed.

(** Lines 148-150: with b = 0 and n <> 0, [gmres] returns at line 150,
    whatever the remaining arguments are. *)
Lemma gmres_zero_rhs (a : solver_args) :
  valid_system (arg_A a) (arg_b a) = true ->
  shape0 (arg_A a) <> 0 ->
  arr_data (arg_b a) = repeat szero (Z.to_nat (shape0 (arg_A a))) ->
  gmres a = ([], Returns (rhs a, 0)).
Proof.
  intros Hs Hn Hb. unfold gmres.
  rewrite (check_system_valid _ _ Hs), bind_ret. simpl fst; simpl snd.
  apply Z.eqb_neq in Hn. rewrite Hn.
  fold (rhs a). rewrite (rhs_zero _ _ Hb), norm_zeros. reflexivity.
Qed.

(** With a right-hand side whose norm is not 0 the same call validates x0:
    line 159 is reached. *)
Lemma gmres_nonzero_rhs_checks_guess (a : solver_args) :
  valid_system (arg_A a) (arg_b a) = true ->
  shape0 (arg_A a) <> 0 ->
  req0 (norm (rhs a)) = false ->
  valid_guess (shape0 (arg_A a)) (arg_x0 a) = false ->
  gmres a = ([], Raises ValueError_x0).
Proof.
  intros Hs Hn Hb Hg. unfold gmres.
  rewrite (check_system_valid _ _ Hs), bind_ret. simpl fst; simpl snd.
  apply Z.eqb_neq in Hn. rewrite Hn. fold (rhs a). rewrite Hb.
  unfold valid_guess in Hg. unfold initial_guess.
  destruct (arg_x0 a) as [x0|]; [|discriminate]. now rewrite Hg.
Qed.

(** C6: for every valid square A with n = 0 and a compatible (empty) b, both
    cg and gmres return an empty solution vector with status 0, and their log
    is empty: no operator is applied (lines 44-45 and 146-147). *)
Theorem trivial_system_returns_empty (a : solver_args) :
  valid_system (arg_A a) (arg_b a) = true ->
  well_formed (arg_b a) ->
  shape0 (arg_A a) = 0 ->
  cg a = ([], Returns ([], 0)) /\ gmres a = ([], Returns ([], 0)).
Proof.
  intros Hs Hw Hn.
  assert (Hlen : length (rhs a) = 0%nat).
  { rewrite rhs_length; trivial.
    - now rewrite Hn.
    - unfold valid_system in Hs. now apply andb_prop in Hs as [_ Hs]. }
  unfold cg, gmres.
  rewrite (check_system_valid _ _ Hs), !bind_ret. simpl fst; simpl snd.
  rewrite Hn. simpl. fold (rhs a).
  now rewrite (empty_like_empty _ Hlen).
Qed.

(** C7: for every valid input to gmres with n >= 1 whose b is the zero
    vector, gmres returns (b, 0) at once: its log is empty, so the operator
    is never applied (lines 148-150). *)
Theorem gmres_zero_rhs_returns_b (a : solver_args) :
  valid_gmres_args a = true ->
  1 <= shape0 (arg_A a) ->
  arr_data (arg_b a) = repeat szero (Z.to_nat (shape0 (arg_A a))) ->
  gmres a = ([], Returns (rhs a, 0)) /\
  rhs a = repeat szero (Z.to_nat (shape0 (arg_A a))) /\
  applications (fst (gmres a)) = [].
Proof.
  intros Hv Hn Hb.
  unfold valid_gmres_args in Hv. apply andb_prop in Hv as [Hv _].
  apply valid_cg_args_inv in Hv as (Hs & _).
  assert (E : gmres a = ([], Returns (rhs a, 0)))
    by (apply gmres_zero_rhs; trivial; lia).
  rewrite E. repeat split. now apply rhs_zero.
Qed.

(** C9: when b is the zero vector and n >= 1, gmres returns (b, 0) before x0
    and callback_type are validated (lines 148-150 come before 155-170): with
    an x0 of incompatible shape and a callback_type outside 'x' and
    'pr_norm', the call still returns and raises no error. *)
Theorem gmres_zero_rhs_skips_validation (a : solver_args) :
  valid_system (arg_A a) (arg_b a) = true ->
  1 <= shape0 (arg_A a) ->
  arr_data (arg_b a) = repeat szero (Z.to_nat (shape0 (arg_A a))) ->
  valid_guess (shape0 (arg_A a)) (arg_x0 a) = false ->
  valid_callback_type (arg_callback_type a) = false ->
  gmres a = ([], Returns (rhs a, 0)) /\
  forall e, snd (gmres a) <> Raises e.
Proof.
  intros Hs Hn Hb _ _.
  assert (E : gmres a = ([], Returns (rhs a, 0)))
    by (apply gmres_zero_rhs; trivial; lia).
  rewrite E. split; [reflexivity | discriminate].
Qed.
End EarlyExits.

Section CgBudgetZero.
Context {L : ArrayLib}.

(** C10: for every valid call of cg with n >= 1 and maxiter = 0, the loop
    body never runs (the log holds the one application of A of line 72 and no
    iteration), and the test of line 96 reads resid, which was never
    assigned: the call raises UnboundLocalError and returns nothing. *)
Theorem cg_maxiter_zero_raises (a : solver_args) :
  valid_cg_args a = true ->
  1 <= shape0 (arg_A a) ->
  arg_maxiter a = Some 0 ->
  cg a = ([EvMatvec (guess a)], Raises (UnboundLocalError "resid")) /\
  iterates (fst (cg a)) = [].
Proof.
  intros Hv Hn Hm.
  assert (E : cg a = ([EvMatvec (guess a)], Raises (UnboundLocalError "resid"))).
  { rewrite cg_valid_eq by (trivial; lia).
    unfold budget. rewrite Hm. reflexivity. }
  rewrite E. split; reflexivity.
Qed.
End CgBudgetZero.

Section CgLoop.
Context {L : ArrayLib}.
Variables (A : operand) (M : option operand) (callback : bool).
Variables (maxiter : Z) (atol : real).

Local Abbreviation next st := (cg_next A M st).
Local Abbreviation pass_log st := (cg_pass_log A M callback atol st).

(** One pass through lines 76-92 is one step of the recurrence of section
    4.2, with its two applications, its callback and its residual test. *)
Lemma cg_body_eq (st : cg_state) :
  cg_body A M callback atol st =
  let first := st_iters st =? 0 in
  let s' := cg_spec_step A M first (iterate_of st) in
  (cg_spec_applies A M first (iterate_of st)
     ++ [EvIterate (it_x s')]
     ++ (if callback then [EvCallback (CbVec (it_x s'))] else [])
     ++ [EvTest (norm (it_r s')) atol],
   Returns ({| st_x := it_x s'; st_r := it_r s'; st_p := it_p s';
               st_rho := it_rho s'; st_iters := st_iters st + 1;
               st_resid := Some (norm (it_r s')) |},
            rleb (norm (it_r s')) atol)).
Proof.
  unfold cg_body, cg_spec_applies, cg_spec_step, iterate_of.
  destruct M, callback; reflexivity.
Qed.

Lemma cg_loop_done (fuel : nat) (st : cg_state) :
  maxiter <= st_iters st ->
  cg_loop fuel A M callback maxiter atol st = ret st.
Proof.
  intros H. apply Z.ltb_ge in H. destruct fuel; simpl; now rewrite H.
Qed.

Lemma cg_loop_step (fuel : nat) (st : cg_state) :
  st_iters st < maxiter ->
  cg_loop (S fuel) A M callback maxiter atol st =
  (pass <- cg_body A M callback atol st ;;
   if snd pass then ret (fst pass)
   else cg_loop fuel A M callback maxiter atol (fst pass)).
Proof.
  intros H. apply Z.ltb_lt in H. simpl. now rewrite H.
Qed.
Lemma first_iteration_eqb (i : Z) :
  0 <= i -> Nat.eqb (Z.to_nat i) 0 = (i =? 0).
Proof.
  intros H. destruct (Z.eqb_spec i 0) as [-> | Hne]; [reflexivity|].
  apply Nat.eqb_neq. lia.
Qed.

Lemma iterations_left (i : Z) :
  i < maxiter ->
  Z.to_nat (maxiter - i) = S (Z.to_nat (maxiter - (i + 1))).
Proof. lia. Qed.

(** Lines 75-93 compute the run of section 4.2: from a state with [iters]
    iterations done, the loop returns the iterate and the count that
    [cg_spec_run] gives for the remaining budget. *)
Lemma cg_loop_refines (fuel : nat) : forall st : cg_state,
  0 <= st_iters st ->
  (Z.to_nat (maxiter - st_iters st) <= fuel)%nat ->
  exists st' : cg_state,
    snd (cg_loop fuel A M callback maxiter atol st) = Returns st' /\
    cg_spec_run A M atol (Z.to_nat (maxiter - st_iters st))
      (Z.to_nat (st_iters st)) (iterate_of st)
    = (Z.to_nat (st_iters st'), iterate_of st') /\
    st_iters st <= st_iters st'.
Proof.
  induction fuel as [|fuel IH]; intros st H0 Hf.
  - rewrite cg_loop_done by lia.
    replace (Z.to_nat (maxiter - st_iters st)) with 0%nat by lia.
    exists st. simpl. repeat split; lia.
  - destruct (Z_lt_le_dec (st_iters st) maxiter) as [Hlt | Hge].
    + rewrite cg_loop_step, cg_body_eq by trivial. cbv zeta.
      rewrite (iterations_left Hlt). cbn [cg_spec_run].
      rewrite (first_iteration_eqb H0).
      set (s' := cg_spec_step A M (st_iters st =? 0) (iterate_of st)).
      rewrite snd_bind. cbn [fst snd].
      destruct (rleb (norm (it_r s')) atol) eqn:Estop; cbn [fst snd].
      * eexists. split; [reflexivity|]. cbn [st_iters iterate_of st_x st_r st_p st_rho].
        split; [|lia]. f_equal; lia.
      * match goal with
        | |- context [cg_loop fuel _ _ _ _ _ ?st1] =>
            destruct (IH st1) as (st' & Hr & Hs & Hle)
        end.
        { simpl. lia. }
        { simpl. lia. }
        exists st'. split; [exact Hr|]. simpl in Hs, Hle.
        replace (Z.to_nat (st_iters st + 1)) with (S (Z.to_nat (st_iters st)))
          in Hs by lia.
        split; [exact Hs | lia].
    + rewrite cg_loop_done by lia.
      replace (Z.to_nat (maxiter - st_iters st)) with 0%nat by lia.
      exists st. simpl. repeat split; lia.
Qed.

(** The log of the loop: one EvIterate per pass, followed by the callback
    when one is supplied. *)
Lemma callbacks_app (t t' : list event) :
  callbacks (t ++ t') = callbacks t ++ callbacks t'.
Proof. apply flat_map_app. Qed.

Lemma iterates_app (t t' : list event) :
  iterates (t ++ t') = iterates t ++ iterates t'.
Proof. apply flat_map_app. Qed.

Lemma tolerances_app (t t' : list event) :
  tolerances (t ++ t') = tolerances t ++ tolerances t'.
Proof. apply flat_map_app. Qed.

Lemma cycles_app (t t' : list event) :
  cycles (t ++ t') = cycles t ++ cycles t'.
Proof. apply flat_map_app. Qed.

Lemma applications_app (t t' : list event) :
  applications (t ++ t') = applications t ++ applications t'.
Proof. apply filter_app. Qed.

Lemma cg_spec_applies_quiet (first : bool) (s : cg_iterate_state) :
  callbacks (cg_spec_applies A M first s) = [] /\
  iterates (cg_spec_applies A M first s) = [] /\
  tolerances (cg_spec_applies A M first s) = [] /\
  applications (cg_spec_applies A M first s) = cg_spec_applies A M first s.
Proof. unfold cg_spec_applies. destruct M; repeat split. Qed.

Lemma cg_loop_pass (fuel : nat) (st : cg_state) :
  st_iters st < maxiter ->
  cg_loop (S fuel) A M callback maxiter atol st =
  if rleb (norm (st_r (next st))) atol
  then (pass_log st, Returns (next st))
  else (pass_log st ++ fst (cg_loop fuel A M callback maxiter atol (next st)),
        snd (cg_loop fuel A M callback maxiter atol (next st))).
Proof.
  intros Hlt. rewrite cg_loop_step, cg_body_eq by trivial. cbv zeta.
  fold (next st). rewrite bind_returns. cbn [fst snd].
  unfold cg_pass_log. cbn [cg_next st_x st_r].
  destruct (rleb _ atol); cbn [fst snd ret]; [|reflexivity].
  now rewrite app_nil_r.
Qed.

Lemma cg_loop_out_of_fuel (st : cg_state) :
  st_iters st < maxiter ->
  cg_loop 0 A M callback maxiter atol st = out_of_fuel.
Proof. intros H. apply Z.ltb_lt in H. simpl. now rewrite H. Qed.

(** An induction principle for facts about the log and the outcome of the
    loop: it is enough to check them where the loop exits at line 75, where
    the fuel is exhausted, and across one pass. *)
Lemma cg_loop_ind (P : cg_state -> run cg_state -> Prop) :
  (forall st, maxiter <= st_iters st -> P st (ret st)) ->
  (forall st, st_iters st < maxiter -> P st out_of_fuel) ->
  (forall st, st_iters st < maxiter ->
     rleb (norm (st_r (next st))) atol = true ->
     P st (pass_log st, Returns (next st))) ->
  (forall st res, st_iters st < maxiter ->
     rleb (norm (st_r (next st))) atol = false ->
     P (next st) res ->
     P st (pass_log st ++ fst res, snd res)) ->
  forall fuel st, P st (cg_loop fuel A M callback maxiter atol st).
Proof.
  intros Hdone Hfuel Hstop Hgo.
  induction fuel as [|fuel IH]; intros st;
    destruct (Z_lt_le_dec (st_iters st) maxiter) as [Hlt | Hge];
    try (rewrite cg_loop_done by trivial; now apply Hdone).
  - rewrite cg_loop_out_of_fuel by trivial. now apply Hfuel.
  - rewrite cg_loop_pass by trivial.
    destruct (rleb (norm (st_r (next st))) atol) eqn:E.
    + now apply Hstop.
    + apply Hgo; trivial.
Qed.

Lemma cg_pass_log_callbacks (st : cg_state) :
  callbacks (pass_log st) =
  if callback then [CbVec (st_x (next st))] else [].
Proof.
  unfold cg_pass_log. rewrite !callbacks_app.
  destruct (cg_spec_applies_quiet (st_iters st =? 0) (iterate_of st))
    as (-> & _).
  now destruct callback.
Qed.

Lemma cg_pass_log_iterates (st : cg_state) :
  iterates (pass_log st) = [st_x (next st)].
Proof.
  unfold cg_pass_log. rewrite !iterates_app.
  destruct (cg_spec_applies_quiet (st_iters st =? 0) (iterate_of st))
    as (_ & -> & _).
  now destruct callback.
Qed.

Lemma cg_pass_log_tolerances (st : cg_state) :
  tolerances (pass_log st) = [atol].
Proof.
  unfold cg_pass_log. rewrite !tolerances_app.
  destruct (cg_spec_applies_quiet (st_iters st =? 0) (iterate_of st))
    as (_ & _ & -> & _).
  now destruct callback.
Qed.

Lemma cg_pass_log_applications (st : cg_state) :
  applications (pass_log st) =
  cg_spec_applies A M (st_iters st =? 0) (iterate_of st).
Proof.
  unfold cg_pass_log. rewrite !applications_app.
  destruct (cg_spec_applies_quiet (st_iters st =? 0) (iterate_of st))
    as (_ & _ & _ & ->).
  destruct callback; simpl; now rewrite app_nil_r.
Qed.

Lemma cg_loop_callbacks (fuel : nat) (st : cg_state) :
  callbacks (fst (cg_loop fuel A M callback maxiter atol st)) =
  if callback
  then map CbVec (iterates (fst (cg_loop fuel A M callback maxiter atol st)))
  else [].
Proof.
  revert fuel st.
  apply (cg_loop_ind (fun _ res =>
    callbacks (fst res) =
    if callback then map CbVec (iterates (fst res)) else [])).
  - intros st _. now destruct callback.
  - intros st _. now destruct callback.
  - intros st _ _. cbn [fst].
    rewrite cg_pass_log_callbacks, cg_pass_log_iterates. now destruct callback.
  - intros st res _ _ IH. cbn [fst].
    rewrite callbacks_app, iterates_app, IH.
    rewrite cg_pass_log_callbacks, cg_pass_log_iterates.
    now destruct callback.
Qed.

Lemma cg_loop_count (fuel : nat) (st st' : cg_state) :
  snd (cg_loop fuel A M callback maxiter atol st) = Returns st' ->
  st_iters st' =
  st_iters st
  + Z.of_nat (length (iterates (fst (cg_loop fuel A M callback maxiter atol st)))).
Proof.
  revert fuel st.
  apply (cg_loop_ind (fun st res =>
    snd res = Returns st' ->
    st_iters st' = st_iters st + Z.of_nat (length (iterates (fst res))))).
  - intros st _ [= <-]. simpl. lia.
  - intros st _ [=].
  - intros st _ _ [= <-]. cbn [fst]. rewrite cg_pass_log_iterates. simpl. lia.
  - intros st res _ _ IH H. cbn [fst snd] in *.
    rewrite iterates_app, length_app, cg_pass_log_iterates, (IH H).
    simpl. lia.
Qed.

Lemma cg_loop_tolerances (fuel : nat) (st : cg_state) :
  Forall (eq atol)
         (tolerances (fst (cg_loop fuel A M callback maxiter atol st))).
Proof.
  revert fuel st.
  apply (cg_loop_ind (fun _ res => Forall (eq atol) (tolerances (fst res)))).
  - constructor.
  - constructor.
  - intros st _ _. cbn [fst]. rewrite cg_pass_log_tolerances. now constructor.
  - intros st res _ _ IH. cbn [fst].
    rewrite tolerances_app, cg_pass_log_tolerances. now constructor.
Qed.

Lemma cg_loop_never_raises (fuel : nat) (st : cg_state) (e : exn) :
  snd (cg_loop fuel A M callback maxiter atol st) <> Raises e.
Proof.
  revert fuel st.
  apply (cg_loop_ind (fun _ res => snd res <> Raises e));
    try discriminate.
  - intros st res _ _ IH. exact IH.
Qed.

Lemma cg_loop_applications (fuel : nat) : forall st : cg_state,
  0 <= st_iters st ->
  (Z.to_nat (maxiter - st_iters st) <= fuel)%nat ->
  applications (fst (cg_loop fuel A M callback maxiter atol st)) =
  cg_spec_applications A M atol (Z.to_nat (maxiter - st_iters st))
    (Z.to_nat (st_iters st)) (iterate_of st).
Proof.
  induction fuel as [|fuel IH]; intros st H0 Hf;
    destruct (Z_lt_le_dec (st_iters st) maxiter) as [Hlt | Hge];
    try (rewrite cg_loop_done by trivial;
         replace (Z.to_nat (maxiter - st_iters st)) with 0%nat by lia;
         reflexivity);
    try lia.
  rewrite cg_loop_pass by trivial.
  rewrite (iterations_left Hlt). cbn [cg_spec_applications].
  rewrite (first_iteration_eqb H0).
  change (it_r (cg_spec_step A M (st_iters st =? 0) (iterate_of st)))
    with (st_r (next st)).
  destruct (rleb (norm (st_r (next st))) atol); cbn [fst].
  - now rewrite cg_pass_log_applications, app_nil_r.
  - rewrite applications_app, cg_pass_log_applications. f_equal.
    rewrite IH by (simpl; lia). simpl st_iters.
    replace (Z.to_nat (st_iters st + 1)) with (S (Z.to_nat (st_iters st))) by lia.
    reflexivity.
Qed.
End CgLoop.

Section CgCall.
Context {L : ArrayLib}.

Lemma cg_atol_effective (tol : real) (atol : option real) (b_norm : real) :
  cg_atol tol atol b_norm = effective_tolerance tol atol b_norm.
Proof. reflexivity. Qed.

(** A call that does not pass the checks, or whose system is trivial, leaves
    an empty log. *)
Lemma cg_log_cases (a : solver_args) :
  fst (cg a) = [] \/ (valid_cg_args a = true /\ shape0 (arg_A a) <> 0).
Proof.
  unfold valid_cg_args, valid_system, square_matrix, cg, check_system.
  destruct (Nat.eqb (ndim (arg_A a)) 2); [|now left].
  destruct (shape0 (arg_A a) =? shape1 (arg_A a)); [|now left].
  destruct (supported_dtype (op_dtype (arg_A a))); [|now left].
  destruct (vector_shape (shape0 (arg_A a)) (arr_shape (arg_b a))); [|now left].
  cbn [negb orb andb]. rewrite bind_ret. cbn [fst snd].
  destruct (Z.eqb_spec (shape0 (arg_A a)) 0) as [E | E]; [now left|].
  unfold initial_guess, valid_guess.
  destruct (arg_x0 a) as [x0|].
  - destruct (vector_shape (shape0 (arg_A a)) (arr_shape x0)); [|now left].
    unfold check_precond, valid_precond. destruct (arg_M a) as [M|].
    + destruct (shape_eqb _ _); [now right | now left].
    + now right.
  - unfold check_precond, valid_precond. destruct (arg_M a) as [M|].
    + destruct (shape_eqb _ _); [now right | now left].
    + now right.
Qed.

Lemma cg_info_cases (maxiter : Z) (atol : real) (st : cg_state) :
  cg_info maxiter atol st = ret 0 \/
  cg_info maxiter atol st = raise (UnboundLocalError "resid") \/
  exists resid, st_resid st = Some resid /\ st_iters st = maxiter /\
    cg_info maxiter atol st =
    ([EvTest resid atol], Returns (if rleb resid atol then 0 else maxiter)).
Proof.
  unfold cg_info. destruct (Z.eqb_spec (st_iters st) maxiter) as [E | E].
  - destruct (st_resid st) as [resid|]; [|now right; left].
    right; right. exists resid. repeat split; trivial.
    rewrite test_eq, bind_returns. cbn. rewrite E. now destruct (rleb resid atol).
  - now left.
Qed.

Lemma cg_iterate_eq (A : operand) (M : option operand) (callback : bool)
    (maxiter : Z) (atol : real) (b x : vec) :
  cg_iterate A M callback maxiter atol b x =
  (EvMatvec x
     :: fst (cg_loop (Z.to_nat maxiter) A M callback maxiter atol (cg_start A b x)),
   snd (cg_loop (Z.to_nat maxiter) A M callback maxiter atol (cg_start A b x))).
Proof.
  unfold cg_iterate, cg_init. rewrite matvec_eq, bind_returns.
  cbn [ret fst snd app]. now rewrite bind_returns.
Qed.

(** The log of a call that reaches line 72: the application of A to the
    guess, the log of the loop, and at most the residual test of line 96. *)
Lemma cg_log_eq (a : solver_args) :
  valid_cg_args a = true -> shape0 (arg_A a) <> 0 ->
  let atol := cg_atol (arg_tol a) (arg_atol a) (norm (rhs a)) in
  let loop := cg_loop (Z.to_nat (budget a)) (arg_A a) (arg_M a) (arg_callback a)
                (budget a) atol (cg_start (arg_A a) (rhs a) (guess a)) in
  exists tail,
    fst (cg a) = EvMatvec (guess a) :: fst loop ++ tail /\
    (tail = [] \/ exists resid, tail = [EvTest resid atol]).
Proof.
  intros Hv Hn atol loop. rewrite cg_valid_eq by trivial. fold atol.
  rewrite cg_iterate_eq. fold loop.
  rewrite fst_bind. cbn [fst snd].
  destruct (snd loop) as [st | e |].
  - rewrite fst_bind.
    destruct (cg_info_cases (budget a) atol st) as [E | [E | (resid & _ & _ & E)]];
      rewrite E; cbn [fst snd ret raise app].
    + exists []. split; [now rewrite !app_nil_r | now left].
    + exists []. split; [now rewrite !app_nil_r | now left].
    + exists [EvTest resid atol]. split; [reflexivity | right; now exists resid].
  - exists []. split; [reflexivity | now left].
  - exists []. split; [reflexivity | now left].
Qed.

(** C5: for every valid input with n >= 1, cg starts from x0 and
    r0 = b - A.apply(x0) and runs the iteration of section 4.2: each
    iteration is one [cg_spec_step] (z = M.apply(r); rho = <r, z>; p = z on
    the first iteration and z + (rho/rho_prev) p_prev afterwards;
    q = A.apply(p); alpha = rho / <p, q>; x + alpha p; r - alpha q), and the
    loop stops, as [cg_spec_run] does, when the norm of r is at most the
    effective tolerance or the count reaches maxiter.  The loop of lines
    72-93 returns the iterate and the count of that run, a solution that cg
    returns is its x, and the operators are applied exactly as the run
    prescribes, in that order. *)
Theorem cg_performs_spec_iteration (a : solver_args) :
  valid_cg_args a = true ->
  1 <= shape0 (arg_A a) ->
  let tol := effective_tolerance (arg_tol a) (arg_atol a) (norm (rhs a)) in
  let start := cg_spec_start (arg_A a) (rhs a) (guess a) in
  let left := Z.to_nat (budget a) in
  (exists st : cg_state,
     snd (cg_iterate (arg_A a) (arg_M a) (arg_callback a) (budget a) tol
            (rhs a) (guess a)) = Returns st /\
     cg_spec_run (arg_A a) (arg_M a) tol left 0 start
     = (Z.to_nat (st_iters st), iterate_of st)) /\
  (forall sol info, snd (cg a) = Returns (sol, info) ->
     sol = it_x (snd (cg_spec_run (arg_A a) (arg_M a) tol left 0 start))) /\
  applications (fst (cg a)) =
  EvMatvec (guess a)
    :: cg_spec_applications (arg_A a) (arg_M a) tol left 0 start.
Proof.
  intros Hv Hn tol start left.
  assert (Hn0 : shape0 (arg_A a) <> 0) by lia.
  pose (st0 := cg_start (arg_A a) (rhs a) (guess a)).
  destruct (@cg_loop_refines _ (arg_A a) (arg_M a) (arg_callback a) (budget a) tol
              (Z.to_nat (budget a)) st0) as (st & Hr & Hs & _).
  { simpl. lia. }
  { simpl. lia. }
  cbn [st0 cg_start st_iters] in Hs.
  rewrite Z.sub_0_r in Hs. change (Z.to_nat 0) with 0%nat in Hs.
  change (iterate_of _) with start in Hs at 1. fold left in Hs.
  split; [|split].
  - exists st. rewrite cg_iterate_eq. cbn [snd]. split; [exact Hr | exact Hs].
  - intros sol info Hret. rewrite cg_valid_eq in Hret by trivial.
    rewrite cg_atol_effective in Hret. fold tol in Hret.
    rewrite snd_bind, cg_iterate_eq in Hret. cbn [snd] in Hret.
    fold st0 in Hret. rewrite Hr in Hret.
    rewrite snd_bind in Hret.
    destruct (snd (cg_info (budget a) tol st)); inversion Hret; subst.
    now rewrite Hs.
  - destruct (cg_log_eq a Hv Hn0) as (tail & -> & Htail).
    cbn [applications filter is_application].
    fold (applications (fst (cg_loop (Z.to_nat (budget a)) (arg_A a) (arg_M a)
            (arg_callback a) (budget a)
            (cg_atol (arg_tol a) (arg_atol a) (norm (rhs a)))
            (cg_start (arg_A a) (rhs a) (guess a))) ++ tail)).
    rewrite applications_app, cg_atol_effective. fold tol st0.
    rewrite cg_loop_applications by (simpl; lia).
    cbn [st0 cg_start st_iters]. rewrite Z.sub_0_r.
    replace (applications tail) with (@nil event).
    + now rewrite app_nil_r.
    + destruct Htail as [-> | (resid & ->)]; reflexivity.
Qed.
End CgCall.

Section GmresLoop.
Context {L : ArrayLib}.
Variables (A : operand) (M : option operand) (callback_type : option string).
Variables (b : vec) (b_norm : real) (maxiter : Z) (atol : real) (restart : Z).

Local Abbreviation loop fuel x iters :=
  (gmres_loop fuel A M callback_type b b_norm maxiter atol restart x iters).
Local Abbreviation mx_of x := (gmres_mx M x).
Local Abbreviation r_of x := (gmres_r A M b x).
Local Abbreviation r_norm_of x := (gmres_r_norm A M b x).
Local Abbreviation callback_log iters :=
  (gmres_callback_log callback_type b_norm iters).
Local Abbreviation head_log x iters :=
  (gmres_head_log A M callback_type b b_norm atol x iters).
Local Abbreviation stop_at x iters := (gmres_stop A M b maxiter atol x iters).

Lemma quiet_app (t t' : list event) : quiet t -> quiet t' -> quiet (t ++ t').
Proof. intros H H'. apply Forall_app. now split. Qed.

Lemma quiet_projections (t : list event) :
  quiet t ->
  callbacks t = [] /\ cycles t = [] /\ tolerances t = [] /\ iterates t = [].
Proof.
  induction 1 as [|ev t Hev _ (IH1 & IH2 & IH3 & IH4)]; [now repeat split|].
  unfold callbacks, cycles, tolerances, iterates in *. cbn [flat_map].
  rewrite IH1, IH2, IH3, IH4.
  destruct ev; try discriminate; now repeat split.
Qed.

Lemma psolve_quiet (x : vec) : quiet (fst (psolve M x)).
Proof. rewrite psolve_eq. destruct M; repeat constructor. Qed.

Lemma arnoldi_quiet (steps : nat) : forall (j : nat) (V H : list vec),
  quiet (fst (arnoldi steps j A M restart V H)) /\
  exists VH, snd (arnoldi steps j A M restart V H) = Returns VH.
Proof.
  induction steps as [|steps IH]; intros j V H.
  - split; [constructor | now eexists].
  - cbn [arnoldi]. rewrite psolve_eq, bind_returns. cbn [fst snd].
    rewrite matvec_eq, bind_returns. cbn [fst snd].
    match goal with
    | |- context [arnoldi steps ?j' A M restart ?V' ?H'] =>
        destruct (IH j' V' H') as (Hq & VH & Hr)
    end.
    split.
    + apply quiet_app; [destruct M; repeat constructor|].
      apply quiet_app; [repeat constructor | exact Hq].
    + now exists VH.
Qed.

(** A cycle applies operators only; it raises at line 198 when V has no
    column, and at line 213 when lstsq raises; otherwise it advances the
    count by restart. *)
Lemma gmres_cycle_cases (x r : vec) (r_norm : real) (iters : Z) :
  (restart = 0 /\
   gmres_cycle A M restart x r r_norm iters = raise IndexError_column) \/
  (restart <> 0 /\
   exists t, quiet t /\
     (gmres_cycle A M restart x r r_norm iters = (t, Raises LstsqError) \/
      exists x', gmres_cycle A M restart x r r_norm iters
                 = (t, Returns (x', iters + restart)))).
Proof.
  unfold gmres_cycle.
  destruct (Z.eqb_spec restart 0) as [E | E]; [now left | right].
  split; [exact E|].
  match goal with
  | |- context [arnoldi ?s ?j A M restart ?V ?H] =>
      destruct (arnoldi_quiet s j V H) as (Hq & VH & Hr);
      destruct (arnoldi s j A M restart V H) as [t out]
  end.
  cbn [fst snd] in Hq, Hr. subst out. exists t. split; [exact Hq|].
  rewrite bind_returns.
  destruct (lstsq (snd VH) _) as [y|]; cbn [fst snd ret raise].
  - right. eexists. now rewrite app_nil_r.
  - left. now rewrite app_nil_r.
Qed.

Lemma gmres_callback_eq (iters : Z) (mx : vec) (r_norm : real) :
  gmres_callback callback_type iters mx r_norm b_norm =
  (callback_log iters mx r_norm, Returns tt).
Proof.
  unfold gmres_callback_log, gmres_callback.
  destruct callback_type as [s|]; [|reflexivity].
  destruct (String.eqb s "x"); [reflexivity|].
  destruct (String.eqb s "pr_norm" && (0 <? iters)); reflexivity.
Qed.

Lemma gmres_loop_eq (fuel : nat) (x : vec) (iters : Z) :
  gmres_loop fuel A M callback_type b b_norm maxiter atol restart x iters =
  if stop_at x iters
  then (head_log x iters,
        Returns (mx_of x, r_norm_of x, iters))
  else
    match fuel with
    | O => (head_log x iters, OutOfFuel)
    | S fuel' =>
        let cycle := gmres_cycle A M restart x (r_of x) (r_norm_of x) iters in
        match snd cycle with
        | Returns next =>
            let rest := gmres_loop fuel' A M callback_type b b_norm maxiter
                          atol restart (fst next) (snd next) in
            (head_log x iters ++ fst cycle ++ fst rest, snd rest)
        | Raises e => (head_log x iters ++ fst cycle, Raises e)
        | OutOfFuel => (head_log x iters ++ fst cycle, OutOfFuel)
        end
    end.
Proof.
  unfold gmres_stop, gmres_head_log, gmres_r_norm, gmres_r, gmres_mx.
  destruct fuel as [|fuel]; cbn [gmres_loop];
    rewrite psolve_eq, bind_returns; cbn [fst snd];
    rewrite matvec_eq, bind_returns; cbn [fst snd];
    rewrite bind_emit; cbn [fst snd];
    rewrite gmres_callback_eq, bind_returns; cbn [fst snd];
    rewrite test_eq, bind_returns; cbn [fst snd];
    set (mx := apply_precond M x);
    set (rn := norm (vsub b (matmul A mx)));
    destruct (rleb rn atol || (maxiter <=? iters)); cbn [fst snd ret out_of_fuel].
  - reflexivity.
  - now rewrite app_nil_r.
  - now rewrite app_nil_r.
  - rewrite fst_bind, snd_bind.
    destruct (gmres_cycle A M restart x (vsub b (matmul A mx)) rn iters)
      as [t [next | e |]]; cbn [fst snd]; f_equal;
      rewrite ?app_nil_r; repeat rewrite <- app_assoc; reflexivity.
Qed.

(** An induction principle for facts about the log and the outcome of the
    loop of lines 188-216: the pass that breaks at line 197, the exhausted
    fuel, a cycle that raises, and a cycle followed by the rest of the
    loop. *)
Lemma gmres_loop_ind (P : vec -> Z -> run (vec * real * Z) -> Prop) :
  (forall x iters, stop_at x iters = true ->
     P x iters (head_log x iters,
                Returns (mx_of x, r_norm_of x, iters))) ->
  (forall x iters, stop_at x iters = false ->
     P x iters (head_log x iters, OutOfFuel)) ->
  (forall x iters t e, stop_at x iters = false -> quiet t ->
     kind_of e = RuntimeFailure ->
     P x iters (head_log x iters ++ t, Raises e)) ->
  (forall x iters t x' res, stop_at x iters = false -> restart <> 0 ->
     quiet t -> P x' (iters + restart) res ->
     P x iters (head_log x iters ++ t ++ fst res, snd res)) ->
  forall fuel x iters, P x iters (loop fuel x iters).
Proof.
  intros Hstop Hfuel Hfail Hgo.
  induction fuel as [|fuel IH]; intros x iters; rewrite gmres_loop_eq;
    destruct (stop_at x iters) eqn:Es; try now apply Hstop.
  - now apply Hfuel.
  - cbv zeta.
    destruct (gmres_cycle_cases x (r_of x) (r_norm_of x) iters)
      as [(_ & E) | (Hr & t & Hq & [E | (x' & E)])]; rewrite E;
      cbn [fst snd raise].
    + apply Hfail; trivial. constructor.
    + now apply Hfail.
    + apply Hgo with (x' := x'); trivial.
Qed.

Lemma gmres_callback_log_cases (iters : Z) (mx : vec) (r_norm : real) :
  callback_log iters mx r_norm = [] \/
  exists arg,
    callback_log iters mx r_norm = [EvCallback arg].
Proof.
  unfold gmres_callback_log, gmres_callback.
  destruct callback_type as [s|]; [|now left].
  destruct (String.eqb s "x"); [right; now eexists|].
  destruct (String.eqb s "pr_norm" && (0 <? iters)); [right; now eexists | now left].
Qed.

Lemma gmres_head_log_cycles (x : vec) (iters : Z) :
  cycles (head_log x iters) = [(x, mx_of x, r_norm_of x)].
Proof.
  unfold gmres_head_log. rewrite !cycles_app.
  destruct (quiet_projections (psolve_quiet x)) as (_ & -> & _).
  destruct (gmres_callback_log_cases iters (mx_of x) (r_norm_of x))
    as [-> | (arg & ->)]; reflexivity.
Qed.

Lemma gmres_head_log_tolerances (x : vec) (iters : Z) :
  tolerances (head_log x iters) = [atol].
Proof.
  unfold gmres_head_log. rewrite !tolerances_app.
  destruct (quiet_projections (psolve_quiet x)) as (_ & _ & -> & _).
  destruct (gmres_callback_log_cases iters (mx_of x) (r_norm_of x))
    as [-> | (arg & ->)]; reflexivity.
Qed.

Lemma gmres_head_log_callbacks (x : vec) (iters : Z) :
  callbacks (head_log x iters) =
  callbacks (callback_log iters (mx_of x) (r_norm_of x)).
Proof.
  unfold gmres_head_log. rewrite !callbacks_app.
  destruct (quiet_projections (psolve_quiet x)) as (-> & _).
  cbn. now rewrite app_nil_r.
Qed.

Lemma gmres_loop_tolerances (fuel : nat) (x : vec) (iters : Z) :
  Forall (eq atol) (tolerances (fst (loop fuel x iters))).
Proof.
  revert fuel x iters.
  apply (gmres_loop_ind (fun _ _ res => Forall (eq atol) (tolerances (fst res))));
    intros; cbn [fst]; rewrite ?tolerances_app, gmres_head_log_tolerances.
  - now constructor.
  - now constructor.
  - destruct (quiet_projections H0) as (_ & _ & -> & _). now constructor.
  - destruct (quiet_projections H1) as (_ & _ & -> & _). now constructor.
Qed.

Lemma gmres_loop_raises (fuel : nat) (x : vec) (iters : Z) (e : exn) :
  snd (loop fuel x iters) = Raises e -> kind_of e = RuntimeFailure.
Proof.
  revert fuel x iters.
  apply (gmres_loop_ind (fun _ _ res =>
    snd res = Raises e -> kind_of e = RuntimeFailure));
    cbn [snd]; try discriminate.
  - intros x iters t e' _ _ Hk [= <-]. exact Hk.
  - intros x iters t x' res _ _ _ IH. exact IH.
Qed.

Lemma last_cycle_app (t t' : list event) :
  cycles t' <> [] -> last_cycle (t ++ t') = last_cycle t'.
Proof.
  unfold last_cycle. rewrite cycles_app, map_app. intros H.
  destruct (cycles t') as [|c cs]; [congruence|].
  clear H. induction (map Some (cycles t)) as [|d ds IH]; [reflexivity|].
  cbn [app]. rewrite <- IH. cbn [last map app].
  destruct ds; reflexivity.
Qed.

Lemma last_cycle_quiet (t t' : list event) :
  quiet t' -> last_cycle (t ++ t') = last_cycle t.
Proof.
  intros H. unfold last_cycle. rewrite cycles_app.
  destruct (quiet_projections H) as (_ & -> & _). now rewrite app_nil_r.
Qed.

(** The pass that breaks returns the mx = M.apply(x) it computed at line
    189, and the last cycle boundary of the log is that pass. *)
Lemma gmres_loop_returns_mx (fuel : nat) (x : vec) (iters : Z)
    (sol : vec) (r_norm : real) (iters' : Z) :
  snd (loop fuel x iters) = Returns (sol, r_norm, iters') ->
  exists x', last_cycle (fst (loop fuel x iters)) = Some (x', sol, r_norm) /\
             sol = apply_precond M x'.
Proof.
  revert fuel x iters.
  apply (gmres_loop_ind (fun _ _ res =>
    snd res = Returns (sol, r_norm, iters') ->
    exists x', last_cycle (fst res) = Some (x', sol, r_norm) /\
               sol = apply_precond M x'));
    cbn [fst snd]; try discriminate.
  - intros x iters _ [= <- <- <-]. exists x.
    unfold last_cycle. rewrite gmres_head_log_cycles. now split.
  - intros x iters t x' res _ _ Hq IH Hret.
    destruct (IH Hret) as (y & Hl & Hs). exists y. split; [|exact Hs].
    rewrite app_assoc, last_cycle_app; [exact Hl|].
    unfold last_cycle in Hl. destruct (cycles (fst res)); [discriminate | congruence].
Qed.

Lemma gmres_loop_callbacks_none (fuel : nat) (x : vec) (iters : Z) :
  callback_type = None -> callbacks (fst (loop fuel x iters)) = [].
Proof.
  intros Hct. revert fuel x iters.
  assert (Hhead : forall x iters, callbacks (head_log x iters) = []).
  { intros x iters. rewrite gmres_head_log_callbacks.
    unfold gmres_callback_log, gmres_callback. now rewrite Hct. }
  apply (gmres_loop_ind (fun _ _ res => callbacks (fst res) = []));
    intros; cbn [fst]; rewrite ?callbacks_app, Hhead; trivial.
  - now destruct (quiet_projections H0) as (-> & _).
  - destruct (quiet_projections H1) as (-> & _). now rewrite H2.
Qed.

Lemma gmres_loop_callbacks_x (fuel : nat) (x : vec) (iters : Z) :
  callback_type = Some "x"%string ->
  callbacks (fst (loop fuel x iters)) = map cb_x (cycles (fst (loop fuel x iters))).
Proof.
  intros Hct. revert fuel x iters.
  assert (Hhead : forall x iters,
            callbacks (head_log x iters) = [CbVec (mx_of x)]).
  { intros x iters. rewrite gmres_head_log_callbacks.
    unfold gmres_callback_log, gmres_callback. now rewrite Hct. }
  apply (gmres_loop_ind (fun _ _ res =>
    callbacks (fst res) = map cb_x (cycles (fst res))));
    intros; cbn [fst];
    rewrite ?callbacks_app, ?cycles_app, Hhead, gmres_head_log_cycles; trivial.
  - destruct (quiet_projections H0) as (-> & -> & _). reflexivity.
  - destruct (quiet_projections H1) as (-> & -> & _). cbn. now rewrite H2.
Qed.

Lemma gmres_loop_callbacks_pr_norm (fuel : nat) (x : vec) (iters : Z) :
  callback_type = Some "pr_norm"%string ->
  0 <= restart -> 0 <= iters ->
  callbacks (fst (loop fuel x iters)) =
  map (cb_pr_norm b_norm) (if 0 <? iters then cycles (fst (loop fuel x iters))
                  else tl (cycles (fst (loop fuel x iters)))).
Proof.
  intros Hct Hr. revert fuel x iters.
  assert (Hhead : forall x iters,
            callbacks (head_log x iters) =
            if 0 <? iters then [cb_pr_norm b_norm (x, mx_of x, r_norm_of x)]
            else []).
  { intros x iters. rewrite gmres_head_log_callbacks.
    unfold gmres_callback_log, gmres_callback. rewrite Hct. cbn.
    now destruct (0 <? iters). }
  apply (gmres_loop_ind (fun _ iters res =>
    0 <= iters ->
    callbacks (fst res) =
    map (cb_pr_norm b_norm) (if 0 <? iters then cycles (fst res)
                    else tl (cycles (fst res)))));
    intros; cbn [fst];
    rewrite ?callbacks_app, ?cycles_app, Hhead, gmres_head_log_cycles.
  - now destruct (0 <? iters).
  - now destruct (0 <? iters).
  - destruct (quiet_projections H0) as (-> & -> & _). now destruct (0 <? iters).
  - destruct (quiet_projections H1) as (-> & -> & _).
    rewrite H2 by lia.
    replace (0 <? iters + restart) with true by (symmetry; apply Z.ltb_lt; lia).
    now destruct (0 <? iters).
Qed.

(** Every pass after the first starts from a count that restart has
    advanced: the count the loop returns is restart times the number of
    cycles run. *)
Lemma gmres_loop_count (fuel : nat) (x : vec) (iters : Z)
    (sol : vec) (r_norm : real) (iters' : Z) :
  snd (loop fuel x iters) = Returns (sol, r_norm, iters') ->
  iters' =
  iters + restart * (Z.of_nat (length (cycles (fst (loop fuel x iters)))) - 1).
Proof.
  revert fuel x iters.
  apply (gmres_loop_ind (fun _ iters res =>
    snd res = Returns (sol, r_norm, iters') ->
    iters' = iters + restart * (Z.of_nat (length (cycles (fst res))) - 1)));
    cbn [fst snd]; try discriminate.
  - intros x iters _ [= _ _ <-]. rewrite gmres_head_log_cycles. simpl. lia.
  - intros x iters t x' res _ _ Hq IH Hret.
    rewrite !cycles_app, gmres_head_log_cycles.
    destruct (quiet_projections Hq) as (_ & -> & _).
    rewrite (IH Hret). cbn [app length]. lia.
Qed.

(** The loop ends: a cycle that returns has restart >= 1 and advances the
    count, so maxiter - iters units of fuel are enough. *)
Lemma gmres_loop_fuel (fuel : nat) : forall (x : vec) (iters : Z),
  0 <= restart ->
  (Z.to_nat (maxiter - iters) <= fuel)%nat ->
  snd (loop fuel x iters) <> OutOfFuel.
Proof.
  induction fuel as [|fuel IH]; intros x iters H0 Hf; rewrite gmres_loop_eq;
    destruct (stop_at x iters) eqn:Es; try discriminate.
  - unfold gmres_stop in Es. apply orb_false_elim in Es as [_ Es].
    apply Z.leb_gt in Es. lia.
  - cbv zeta.
    destruct (gmres_cycle_cases x (r_of x) (r_norm_of x) iters)
      as [(_ & E) | (Hr & t & Hq & [E | (x' & E)])]; rewrite E;
      cbn [fst snd raise]; try discriminate.
    unfold gmres_stop in Es. apply orb_false_elim in Es as [_ Es].
    apply Z.leb_gt in Es.
    apply IH; lia.
Qed.
End GmresLoop.

Section GmresCall.
Context {L : ArrayLib}.

Lemma gmres_atol_effective (tol : real) (atol : option real) (b_norm : real) :
  req0 b_norm = false ->
  gmres_atol tol atol b_norm = effective_tolerance tol atol b_norm.
Proof.
  intros H. unfold gmres_atol, effective_tolerance. now rewrite H.
Qed.

Lemma resolve_callback_type_valid (a : solver_args) :
  valid_callback_type (arg_callback_type a) = true ->
  resolve_callback_type (arg_callback a) (arg_callback_type a)
  = ret (resolved_callback_type a).
Proof.
  unfold valid_callback_type, resolve_callback_type, resolved_callback_type.
  destruct (arg_callback_type a) as [s|]; [intros -> | intros _]; reflexivity.
Qed.

Lemma gmres_reaches_eq (a : solver_args) :
  reaches_loop a ->
  gmres a =
  (fin <- gmres_call_loop a ;;
   info <- gmres_info (budget a) (gmres_tol a) (snd (fst fin)) (snd fin) ;;
   ret (fst (fst fin), info)).
Proof.
  intros (Hv & Hn & Hb & Hr).
  unfold valid_gmres_args in Hv. apply andb_prop in Hv as [Hv Hc].
  apply valid_cg_args_inv in Hv as (Hs & Hg & Hp).
  unfold gmres. rewrite (check_system_valid _ _ Hs), bind_ret. cbn [fst snd].
  apply Z.eqb_neq in Hn. rewrite Hn. fold (rhs a). rewrite Hb.
  rewrite (initial_guess_valid _ Hg), bind_ret.
  rewrite (resolve_callback_type_valid _ Hc), bind_ret.
  rewrite (check_precond_valid _ _ Hp), bind_ret.
  fold (gmres_restart a). apply Z.ltb_ge in Hr. rewrite Hr, bind_ret.
  reflexivity.
Qed.

(** A call that does not reach the loop leaves an empty log. *)
Lemma gmres_log_cases (a : solver_args) :
  fst (gmres a) = [] \/ reaches_loop a.
Proof.
  unfold reaches_loop, valid_gmres_args, valid_cg_args, valid_system,
    square_matrix, gmres, check_system.
  destruct (Nat.eqb (ndim (arg_A a)) 2); [|now left].
  destruct (shape0 (arg_A a) =? shape1 (arg_A a)); [|now left].
  destruct (supported_dtype (op_dtype (arg_A a))); [|now left].
  destruct (vector_shape (shape0 (arg_A a)) (arr_shape (arg_b a))); [|now left].
  cbn [negb orb andb]. rewrite bind_ret. cbn [fst snd].
  destruct (Z.eqb_spec (shape0 (arg_A a)) 0) as [E | E]; [now left|].
  fold (rhs a). destruct (req0 (norm (rhs a))); [now left|].
  assert (Hg : fst (initial_guess (arg_A a) (shape0 (arg_A a)) (arg_x0 a)) = []
               /\ (valid_guess (shape0 (arg_A a)) (arg_x0 a) = true \/
                   exists e, snd (initial_guess (arg_A a) (shape0 (arg_A a))
                                    (arg_x0 a)) = Raises e)).
  { unfold initial_guess, valid_guess. destruct (arg_x0 a) as [x0|]; [|now auto].
    destruct (vector_shape _ (arr_shape x0)); cbn; eauto. }
  destruct Hg as (Hg0 & [Hg | (e & Hg)]).
  2:{ left. rewrite fst_bind, Hg0, Hg. reflexivity. }
  rewrite (initial_guess_valid _ Hg), bind_ret, Hg.
  destruct (valid_callback_type (arg_callback_type a)) eqn:Hc.
  2:{ left. unfold resolve_callback_type, valid_callback_type in *.
      destruct (arg_callback_type a) as [s|]; [|discriminate].
      now rewrite Hc. }
  rewrite (resolve_callback_type_valid _ Hc), bind_ret.
  destruct (valid_precond (arg_A a) (arg_M a)) eqn:Hp.
  2:{ left. unfold check_precond, valid_precond in *.
      destruct (arg_M a) as [M|]; [|discriminate]. now rewrite Hp. }
  rewrite (check_precond_valid _ _ Hp), bind_ret.
  fold (gmres_restart a).
  destruct (Z.ltb_spec (gmres_restart a) 0) as [Hr | Hr]; [now left|].
  right. repeat split; trivial.
Qed.

Lemma gmres_info_cases (maxiter : Z) (atol r_norm : real) (iters : Z) :
  gmres_info maxiter atol r_norm iters = ret 0 \/
  (iters = maxiter /\
   gmres_info maxiter atol r_norm iters =
   ([EvTest r_norm atol], Returns (if rleb r_norm atol then 0 else maxiter))).
Proof.
  unfold gmres_info. destruct (Z.eqb_spec iters maxiter) as [E | E]; [|now left].
  right. split; [exact E|]. rewrite test_eq, bind_returns. cbn.
  rewrite E. now destruct (rleb r_norm atol).
Qed.

(** The log of a call that reaches the loop: the log of the loop and at most
    the residual test of line 219. *)
Lemma gmres_log_eq (a : solver_args) :
  reaches_loop a ->
  exists tail,
    fst (gmres a) = fst (gmres_call_loop a) ++ tail /\
    (tail = [] \/ exists r_norm, tail = [EvTest r_norm (gmres_tol a)]).
Proof.
  intros H. rewrite (gmres_reaches_eq H), fst_bind.
  destruct (snd (gmres_call_loop a)) as [fin | e |].
  - rewrite fst_bind.
    destruct (gmres_info_cases (budget a) (gmres_tol a) (snd (fst fin)) (snd fin))
      as [E | (_ & E)]; rewrite E; cbn [fst snd ret app].
    + exists []. split; [reflexivity | now left].
    + exists [EvTest (snd (fst fin)) (gmres_tol a)]. split; [reflexivity|].
      right. now eexists.
  - exists []. split; [reflexivity | now left].
  - exists []. split; [reflexivity | now left].
Qed.
End GmresCall.

Section LogProperties.
Context {L : ArrayLib}.

Lemma tail_quiet_projections (tail : list event) (tol : real) :
  tail = [] \/ (exists r, tail = [EvTest r tol]) ->
  callbacks tail = [] /\ cycles tail = [] /\ iterates tail = [] /\
  Forall (eq tol) (tolerances tail).
Proof.
  intros [-> | (r & ->)]; repeat split; repeat constructor.
Qed.

(** C2: in cg and in gmres, every evaluation of the convergence test
    [residual norm <= tolerance] compares against the effective tolerance of
    section 4.1: tol when atol is unspecified and the norm of b is 0,
    tol * norm(b) when atol is unspecified and the norm of b is not 0, and
    max(atol, tol * norm(b)) when atol is supplied (lines 47-53 and
    151-154; gmres runs no test when the norm of b is 0). *)
Theorem tests_use_effective_tolerance (a : solver_args) :
  let tol := effective_tolerance (arg_tol a) (arg_atol a) (norm (rhs a)) in
  Forall (eq tol) (tolerances (fst (cg a))) /\
  Forall (eq tol) (tolerances (fst (gmres a))).
Proof.
  intros tol. split.
  - destruct (cg_log_cases a) as [-> | (Hv & Hn)]; [constructor|].
    destruct (cg_log_eq a Hv Hn) as (tail & -> & Htail).
    rewrite cg_atol_effective in *. fold tol in Htail |- *.
    change (EvMatvec (guess a) :: ?t) with ([EvMatvec (guess a)] ++ t).
    rewrite !tolerances_app. apply Forall_app. split; [constructor|].
    apply Forall_app. split; [apply cg_loop_tolerances|].
    now apply tail_quiet_projections.
  - destruct (gmres_log_cases a) as [-> | Hreach]; [constructor|].
    destruct (gmres_log_eq Hreach) as (tail & -> & Htail).
    destruct Hreach as (_ & _ & Hb & _).
    unfold gmres_call_loop, gmres_tol in *.
    rewrite gmres_atol_effective in * by exact Hb. fold tol in Htail |- *.
    rewrite tolerances_app. apply Forall_app.
    split; [apply gmres_loop_tolerances | now apply tail_quiet_projections].
Qed.

(** C4: on every input on which gmres runs at least one termination check
    and returns, the solution it returns is the point mx = M.apply(x) computed
    at line 189 of the final cycle boundary (x itself when M is unspecified),
    where x is the iterate the loop tracks. *)
Theorem gmres_returns_preconditioned_point (a : solver_args)
    (sol : vec) (info : Z) :
  snd (gmres a) = Returns (sol, info) ->
  cycles (fst (gmres a)) <> [] ->
  exists (x : vec) (r_norm : real),
    last_cycle (fst (gmres a)) = Some (x, sol, r_norm) /\
    sol = apply_precond (arg_M a) x.
Proof.
  intros Hret Hcyc.
  destruct (gmres_log_cases a) as [E | Hreach]; [now rewrite E in Hcyc|].
  destruct (gmres_log_eq Hreach) as (tail & E & Htail). rewrite E.
  rewrite (gmres_reaches_eq Hreach), snd_bind in Hret.
  destruct (snd (gmres_call_loop a)) as [[[mx r_norm] iters] | e |] eqn:Hloop;
    try discriminate.
  rewrite snd_bind in Hret. cbn [fst snd] in Hret.
  destruct (snd (gmres_info (budget a) (gmres_tol a) r_norm iters));
    inversion Hret; subst.
  destruct (gmres_loop_returns_mx _ _ _ _ _ _ _ _ _ _ _ Hloop) as (x & Hl & Hs).
  exists x, r_norm. split; [|exact Hs].
  unfold last_cycle in *. rewrite cycles_app.
  destruct (tail_quiet_projections Htail) as (_ & -> & _).
  now rewrite app_nil_r.
Qed.

(** C8: when a callback is supplied, cg calls it exactly once per completed
    iteration, with the iterate x of that iteration (lines 88-90), and gmres
    calls it at the cycle boundaries (lines 192-195): with mx at every
    boundary, the first included, when callback_type is 'x'; with
    r_norm / norm(b) at every boundary but the first when callback_type is
    'pr_norm' (the default).  The iterations counted are the ones the loop
    counts in iters. *)
Theorem callback_once_per_iteration (a : solver_args) :
  arg_callback a = true ->
  callbacks (fst (cg a)) = map CbVec (iterates (fst (cg a))) /\
  (forall st,
     snd (cg_iterate (arg_A a) (arg_M a) true (budget a)
            (cg_atol (arg_tol a) (arg_atol a) (norm (rhs a)))
            (rhs a) (guess a)) = Returns st ->
     valid_cg_args a = true -> shape0 (arg_A a) <> 0 ->
     st_iters st = Z.of_nat (length (callbacks (fst (cg a))))) /\
  (arg_callback_type a = Some "x"%string ->
   callbacks (fst (gmres a)) = map cb_x (cycles (fst (gmres a)))) /\
  (arg_callback_type a = Some "pr_norm"%string \/ arg_callback_type a = None ->
   callbacks (fst (gmres a))
   = map (cb_pr_norm (norm (rhs a))) (tl (cycles (fst (gmres a))))).
Proof.
  intros Hcb.
  assert (Hcg : callbacks (fst (cg a)) = map CbVec (iterates (fst (cg a)))).
  { destruct (cg_log_cases a) as [-> | (Hv & Hn)]; [reflexivity|].
    destruct (cg_log_eq a Hv Hn) as (tail & -> & Htail).
    change (EvMatvec (guess a) :: ?t) with ([EvMatvec (guess a)] ++ t).
    rewrite !callbacks_app, !iterates_app, cg_loop_callbacks, Hcb.
    destruct (tail_quiet_projections Htail) as (-> & _ & -> & _).
    cbn. now rewrite !app_nil_r. }
  split; [exact Hcg | split; [|split]].
  - intros st Hst Hv Hn. rewrite Hcg, length_map.
    destruct (cg_log_eq a Hv Hn) as (tail & -> & Htail).
    change (EvMatvec (guess a) :: ?t) with ([EvMatvec (guess a)] ++ t).
    rewrite !iterates_app.
    destruct (tail_quiet_projections Htail) as (_ & _ & -> & _).
    rewrite cg_iterate_eq in Hst. cbn [snd] in Hst. rewrite Hcb.
    rewrite (cg_loop_count _ _ _ _ _ _ _ Hst).
    cbn. now rewrite app_nil_r.
  - intros Hct.
    destruct (gmres_log_cases a) as [-> | Hreach]; [reflexivity|].
    destruct (gmres_log_eq Hreach) as (tail & -> & Htail).
    rewrite callbacks_app, cycles_app.
    destruct (tail_quiet_projections Htail) as (-> & -> & _).
    rewrite !app_nil_r. apply gmres_loop_callbacks_x.
    unfold resolved_callback_type. now rewrite Hcb, Hct.
  - intros Hct.
    destruct (gmres_log_cases a) as [-> | Hreach]; [reflexivity|].
    destruct (gmres_log_eq Hreach) as (tail & -> & Htail).
    rewrite callbacks_app, cycles_app.
    destruct (tail_quiet_projections Htail) as (-> & -> & _).
    rewrite !app_nil_r. unfold gmres_call_loop.
    rewrite gmres_loop_callbacks_pr_norm; try lia.
    + reflexivity.
    + unfold resolved_callback_type. rewrite Hcb.
      now destruct Hct as [-> | ->].
    + now destruct Hreach as (_ & _ & _ & Hr).
Qed.
End LogProperties.

Section SetupErrors.
Context {L : ArrayLib}.

Lemma cg_setup_error_log (a : solver_args) (e : exn) :
  is_setup_error e = true -> snd (cg a) = Raises e -> fst (cg a) = [].
Proof.
  intros He Hr.
  destruct (cg_log_cases a) as [E | (Hv & Hn)]; [exact E | exfalso].
  rewrite cg_valid_eq, snd_bind, cg_iterate_eq in Hr by trivial.
  cbn [snd] in Hr.
  destruct (snd (cg_loop _ _ _ _ _ _ _)) as [st | e' |] eqn:Hloop;
    try discriminate.
  - rewrite snd_bind in Hr.
    destruct (cg_info_cases (budget a)
                (cg_atol (arg_tol a) (arg_atol a) (norm (rhs a))) st)
      as [E | [E | (resid & _ & _ & E)]]; rewrite E in Hr; cbn in Hr;
      try discriminate.
    injection Hr as <-. discriminate.
  - now apply cg_loop_never_raises in Hloop.
Qed.

Lemma gmres_setup_error_log (a : solver_args) (e : exn) :
  is_setup_error e = true -> snd (gmres a) = Raises e -> fst (gmres a) = [].
Proof.
  intros He Hr.
  destruct (gmres_log_cases a) as [E | Hreach]; [exact E | exfalso].
  rewrite (gmres_reaches_eq Hreach), snd_bind in Hr.
  destruct (snd (gmres_call_loop a)) as [fin | e' |] eqn:Hloop;
    try discriminate.
  - rewrite snd_bind in Hr.
    destruct (gmres_info_cases (budget a) (gmres_tol a) (snd (fst fin)) (snd fin))
      as [E | (_ & E)]; rewrite E in Hr; discriminate.
  - injection Hr as <-. apply gmres_loop_raises in Hloop.
    unfold is_setup_error in He. now rewrite Hloop in He.
Qed.

(** C3 (amended): for every A that is not a square 2-dimensional matrix, and
    for every b whose shape is neither (n,) nor (n, 1) when A is square of
    side n with a supported scalar type (dtype char f, d, F or D), cg and
    gmres raise the ValueError of the shape check (a ShapeError); when A is
    square with an unsupported scalar type, cg and gmres raise the TypeError
    of the dtype check first, whatever the shape of b is, and no ShapeError;
    and whenever cg or gmres raises a setup error (ShapeError, unsupported
    scalar type, preconditioner shape mismatch, unknown callback_type) the
    log is empty: no operator was applied before the error. *)
Theorem shape_errors_precede_operator (a : solver_args) :
  (square_matrix (arg_A a) = false ->
   cg a = ([], Raises (ValueError_square (op_shape (arg_A a)))) /\
   gmres a = ([], Raises (ValueError_square (op_shape (arg_A a)))) /\
   raises_kind (cg a) ShapeError /\ raises_kind (gmres a) ShapeError) /\
  (square_matrix (arg_A a) = true ->
   supported_dtype (op_dtype (arg_A a)) = true ->
   vector_shape (shape0 (arg_A a)) (arr_shape (arg_b a)) = false ->
   cg a = ([], Raises ValueError_b) /\ gmres a = ([], Raises ValueError_b) /\
   raises_kind (cg a) ShapeError /\ raises_kind (gmres a) ShapeError) /\
  (square_matrix (arg_A a) = true ->
   supported_dtype (op_dtype (arg_A a)) = false ->
   cg a = ([], Raises (TypeError_dtype (op_dtype (arg_A a)))) /\
   gmres a = ([], Raises (TypeError_dtype (op_dtype (arg_A a)))) /\
   raises_kind (cg a) UnsupportedScalar /\
   raises_kind (gmres a) UnsupportedScalar /\
   ~ raises_kind (cg a) ShapeError /\ ~ raises_kind (gmres a) ShapeError) /\
  (forall e, is_setup_error e = true ->
     (snd (cg a) = Raises e -> fst (cg a) = []) /\
     (snd (gmres a) = Raises e -> fst (gmres a) = [])).
Proof.
  split; [|split; [|split]].
  - intros Hsq.
    assert (Ec : cg a = ([], Raises (ValueError_square (op_shape (arg_A a))))).
    { unfold cg. now rewrite (check_system_not_square _ _ Hsq). }
    assert (Eg : gmres a = ([], Raises (ValueError_square (op_shape (arg_A a))))).
    { unfold gmres. now rewrite (check_system_not_square _ _ Hsq). }
    rewrite Ec, Eg. repeat split; eexists; split; reflexivity.
  - intros Hsq Hd Hb.
    assert (Ec : cg a = ([], Raises ValueError_b)).
    { unfold cg. now rewrite (check_system_bad_rhs _ _ Hsq Hd Hb). }
    assert (Eg : gmres a = ([], Raises ValueError_b)).
    { unfold gmres. now rewrite (check_system_bad_rhs _ _ Hsq Hd Hb). }
    rewrite Ec, Eg. repeat split; eexists; split; reflexivity.
  - intros Hsq Hd.
    assert (Ec : cg a = ([], Raises (TypeError_dtype (op_dtype (arg_A a))))).
    { unfold cg. now rewrite (check_system_bad_dtype _ (arg_b a) Hsq Hd). }
    assert (Eg : gmres a = ([], Raises (TypeError_dtype (op_dtype (arg_A a))))).
    { unfold gmres. now rewrite (check_system_bad_dtype _ (arg_b a) Hsq Hd). }
    rewrite Ec, Eg.
    split; [reflexivity|]. split; [reflexivity|].
    split; [eexists; split; reflexivity|].
    split; [eexists; split; reflexivity|].
    split; intros (e & He & Hk); cbn [snd] in He; injection He as <-;
      discriminate.
  - intros e He. split.
    + now apply cg_setup_error_log.
    + now apply gmres_setup_error_log.
Qed.
End SetupErrors.

Section Status.
Context {L : ArrayLib}.

(** How the loop of cg ends once it has run: resid is assigned, and either
    the test of line 92 passed or the count reached maxiter on a failed
    test. *)
Lemma cg_loop_exit (A : operand) (M : option operand) (callback : bool)
    (maxiter : Z) (atol : real) (fuel : nat) (st st' : cg_state) :
  snd (cg_loop fuel A M callback maxiter atol st) = Returns st' ->
  (st' = st /\ maxiter <= st_iters st) \/
  (st_resid st' = Some (norm (st_r st')) /\
   (rleb (norm (st_r st')) atol = true \/
    (st_iters st' = maxiter /\ rleb (norm (st_r st')) atol = false))).
Proof.
  revert fuel st.
  apply (@cg_loop_ind _ A M callback maxiter atol (fun st res =>
    snd res = Returns st' ->
    (st' = st /\ maxiter <= st_iters st) \/
    (st_resid st' = Some (norm (st_r st')) /\
     (rleb (norm (st_r st')) atol = true \/
      (st_iters st' = maxiter /\ rleb (norm (st_r st')) atol = false)))));
    cbn [snd]; try discriminate.
  - intros st Hge [= <-]. now left.
  - intros st _ Hstop [= <-]. right. split; [reflexivity | now left].
  - intros st res Hlt Hgo IH Hret.
    destruct (IH Hret) as [(-> & Hge) | Hr]; [|now right].
    right. split; [reflexivity|]. right. split; [|exact Hgo].
    cbn [cg_next st_iters] in *. lia.
Qed.

(** X1: with maxiter >= 1 the status of cg is the one of section 4.2: 0 when
    the last residual test passed, maxiter otherwise. *)
Theorem cg_status_sound (a : solver_args) :
  valid_cg_args a = true ->
  shape0 (arg_A a) <> 0 ->
  1 <= budget a ->
  let tol := effective_tolerance (arg_tol a) (arg_atol a) (norm (rhs a)) in
  exists st : cg_state,
    snd (cg_iterate (arg_A a) (arg_M a) (arg_callback a) (budget a) tol
           (rhs a) (guess a)) = Returns st /\
    snd (cg a) =
    Returns (st_x st, if rleb (norm (st_r st)) tol then 0 else budget a).
Proof.
  intros Hv Hn Hm tol.
  pose (st0 := cg_start (arg_A a) (rhs a) (guess a)).
  destruct (@cg_loop_refines _ (arg_A a) (arg_M a) (arg_callback a) (budget a) tol
              (Z.to_nat (budget a)) st0) as (st & Hr & _ & _).
  { simpl. lia. }
  { simpl. lia. }
  exists st. rewrite cg_valid_eq by trivial.
  rewrite cg_atol_effective. fold tol.
  rewrite snd_bind, cg_iterate_eq. cbn [snd]. fold st0. rewrite Hr.
  split; [reflexivity|]. rewrite snd_bind.
  destruct (cg_loop_exit _ _ _ _ _ _ _ Hr) as [(_ & Hge) | (Hres & Hwhy)].
  { simpl in Hge. lia. }
  unfold cg_info. rewrite Hres, test_eq, bind_returns. cbn [fst snd ret].
  destruct Hwhy as [Hok | (Hit & Hok)]; rewrite Hok.
  - now destruct (st_iters st =? budget a).
  - rewrite Hit, Z.eqb_refl. reflexivity.
Qed.

(** The status of gmres, as lines 218-220 compute it from the count and the
    residual norm of the pass that broke: maxiter only when the count is
    exactly maxiter and the test fails, 0 in every other case. *)
Lemma gmres_status_value (a : solver_args) (mx : vec) (r_norm : real)
    (iters : Z) :
  reaches_loop a ->
  snd (gmres_call_loop a) = Returns (mx, r_norm, iters) ->
  snd (gmres a) =
  Returns (mx, if (iters =? budget a) && negb (rleb r_norm (gmres_tol a))
               then budget a else 0).
Proof.
  intros Hreach Hloop.
  rewrite (gmres_reaches_eq Hreach), snd_bind, Hloop, snd_bind. cbn [fst snd].
  unfold gmres_info.
  destruct (Z.eqb_spec iters (budget a)) as [-> | Hne]; [|reflexivity].
  rewrite test_eq, bind_returns. cbn.
  now destruct (rleb r_norm (gmres_tol a)).
Qed.

(** X2: a run of gmres whose loop breaks with a count other than maxiter, as
    when restart carries the count past maxiter, reports status 0, whatever
    its residual. *)
Corollary gmres_status_zero_past_budget (a : solver_args) (mx : vec)
    (r_norm : real) (iters : Z) :
  reaches_loop a ->
  snd (gmres_call_loop a) = Returns (mx, r_norm, iters) ->
  iters <> budget a ->
  snd (gmres a) = Returns (mx, 0).
Proof.
  intros Hreach Hloop Hne. rewrite (gmres_status_value Hreach Hloop).
  apply Z.eqb_neq in Hne. now rewrite Hne.
Qed.

(** How the loop of gmres ends: the pass that breaks satisfies the condition
    of line 196, and when restart >= 1 divides the budget left the count never
    passes maxiter. *)
Lemma gmres_loop_exit (A : operand) (M : option operand)
    (callback_type : option string) (b : vec) (b_norm : real) (maxiter : Z)
    (atol : real) (restart : Z) (fuel : nat) (x : vec) (iters : Z)
    (mx : vec) (r_norm : real) (iters' : Z) :
  snd (gmres_loop fuel A M callback_type b b_norm maxiter atol restart x iters)
  = Returns (mx, r_norm, iters') ->
  rleb r_norm atol = true \/ maxiter <= iters'.
Proof.
  revert fuel x iters.
  apply (@gmres_loop_ind _ A M callback_type b b_norm maxiter atol restart
           (fun _ _ res => snd res = Returns (mx, r_norm, iters') ->
                           rleb r_norm atol = true \/ maxiter <= iters'));
    cbn [snd]; try discriminate.
  - intros x iters Hstop [= <- <- <-]. unfold gmres_stop in Hstop.
    apply orb_prop in Hstop as [H | H]; [now left | right].
    now apply Z.leb_le.
  - intros x iters t x' res _ _ _ IH. exact IH.
Qed.

Lemma gmres_loop_within_budget (A : operand) (M : option operand)
    (callback_type : option string) (b : vec) (b_norm : real) (maxiter : Z)
    (atol : real) (restart : Z) (fuel : nat) (x : vec) (iters : Z)
    (mx : vec) (r_norm : real) (iters' : Z) :
  0 < restart ->
  snd (gmres_loop fuel A M callback_type b b_norm maxiter atol restart x iters)
  = Returns (mx, r_norm, iters') ->
  iters <= maxiter -> (restart | maxiter - iters) ->
  iters' <= maxiter.
Proof.
  intros Hpos. revert fuel x iters.
  apply (@gmres_loop_ind _ A M callback_type b b_norm maxiter atol restart
           (fun _ iters res =>
              snd res = Returns (mx, r_norm, iters') ->
              iters <= maxiter -> (restart | maxiter - iters) ->
              iters' <= maxiter));
    cbn [snd]; try discriminate.
  - intros x iters _ [= _ _ <-] Hle _. exact Hle.
  - intros x iters t x' res Hstop _ _ IH Hret Hle (k & Hk).
    unfold gmres_stop in Hstop. apply orb_false_elim in Hstop as [_ Hlt].
    apply Z.leb_gt in Hlt.
    assert (1 <= k) by nia.
    apply IH; trivial; [nia|]. exists (k - 1). rewrite Z.mul_sub_distr_r. lia.
Qed.

(** X3: when maxiter >= 0 is a multiple of restart >= 1, the status of gmres
    is the one of section 4.3: 0 when the last residual test passed, maxiter
    otherwise. *)
Theorem gmres_status_sound_on_multiples (a : solver_args) (mx : vec)
    (r_norm : real) (iters : Z) :
  reaches_loop a ->
  1 <= gmres_restart a ->
  0 <= budget a ->
  (gmres_restart a | budget a) ->
  snd (gmres_call_loop a) = Returns (mx, r_norm, iters) ->
  snd (gmres a) =
  Returns (mx, if rleb r_norm (gmres_tol a) then 0 else budget a).
Proof.
  intros Hreach Hr Hm Hdiv Hloop.
  rewrite (gmres_status_value Hreach Hloop).
  destruct (rleb r_norm (gmres_tol a)) eqn:Hok; [now rewrite andb_false_r|].
  assert (Hge : budget a <= iters).
  { destruct (gmres_loop_exit _ _ _ _ _ _ _ _ _ _ _ Hloop) as [H | H];
      [congruence | exact H]. }
  assert (Hle : iters <= budget a).
  { unfold gmres_call_loop in Hloop.
    eapply gmres_loop_within_budget;
      [ | exact Hloop | lia | now rewrite Z.sub_0_r ]; lia. }
  replace iters with (budget a) by lia. now rewrite Z.eqb_refl.
Qed.

(** Neither function loops forever: the fuel given to the loops is never
    exhausted.  First the calls that end during setup. *)
Lemma cg_early_outcome (a : solver_args) :
  snd (cg a) <> OutOfFuel \/ (valid_cg_args a = true /\ shape0 (arg_A a) <> 0).
Proof.
  unfold valid_cg_args, valid_system, square_matrix, cg, check_system.
  destruct (Nat.eqb (ndim (arg_A a)) 2); [|now left].
  destruct (shape0 (arg_A a) =? shape1 (arg_A a)); [|now left].
  destruct (supported_dtype (op_dtype (arg_A a))); [|now left].
  destruct (vector_shape (shape0 (arg_A a)) (arr_shape (arg_b a))); [|now left].
  cbn [negb orb andb]. rewrite bind_ret. cbn [fst snd].
  destruct (Z.eqb_spec (shape0 (arg_A a)) 0) as [E | E]; [now left|].
  unfold initial_guess, valid_guess.
  destruct (arg_x0 a) as [x0|].
  - destruct (vector_shape (shape0 (arg_A a)) (arr_shape x0)); [|now left].
    unfold check_precond, valid_precond. destruct (arg_M a) as [M|].
    + destruct (shape_eqb _ _); [now right | now left].
    + now right.
  - unfold check_precond, valid_precond. destruct (arg_M a) as [M|].
    + destruct (shape_eqb _ _); [now right | now left].
    + now right.
Qed.

(** X4: cg ends on every input: the loop of lines 75-93 runs at most maxiter
    passes. *)
Theorem cg_terminates (a : solver_args) : snd (cg a) <> OutOfFuel.
Proof.
  destruct (cg_early_outcome a) as [H | (Hv & Hn)]; [exact H|].
  rewrite cg_valid_eq, snd_bind, cg_iterate_eq by trivial. cbn [snd].
  destruct (@cg_loop_refines _ (arg_A a) (arg_M a) (arg_callback a) (budget a)
              (cg_atol (arg_tol a) (arg_atol a) (norm (rhs a)))
              (Z.to_nat (budget a)) (cg_start (arg_A a) (rhs a) (guess a)))
    as (st & -> & _).
  { simpl. lia. }
  { simpl. lia. }
  rewrite snd_bind.
  destruct (cg_info_cases (budget a)
              (cg_atol (arg_tol a) (arg_atol a) (norm (rhs a))) st)
    as [E | [E | (resid & _ & _ & E)]]; rewrite E; discriminate.
Qed.

Lemma gmres_early_outcome (a : solver_args) :
  snd (gmres a) <> OutOfFuel \/ reaches_loop a.
Proof.
  unfold reaches_loop, valid_gmres_args, valid_cg_args, valid_system,
    square_matrix, gmres, check_system.
  destruct (Nat.eqb (ndim (arg_A a)) 2); [|now left].
  destruct (shape0 (arg_A a) =? shape1 (arg_A a)); [|now left].
  destruct (supported_dtype (op_dtype (arg_A a))); [|now left].
  destruct (vector_shape (shape0 (arg_A a)) (arr_shape (arg_b a))); [|now left].
  cbn [negb orb andb]. rewrite bind_ret. cbn [fst snd].
  destruct (Z.eqb_spec (shape0 (arg_A a)) 0) as [E | E]; [now left|].
  fold (rhs a). destruct (req0 (norm (rhs a))); [now left|].
  destruct (valid_guess (shape0 (arg_A a)) (arg_x0 a)) eqn:Hg.
  2:{ left. unfold initial_guess, valid_guess in *.
      destruct (arg_x0 a) as [x0|]; [|discriminate]. now rewrite Hg. }
  rewrite (initial_guess_valid _ Hg), bind_ret.
  destruct (valid_callback_type (arg_callback_type a)) eqn:Hc.
  2:{ left. unfold resolve_callback_type, valid_callback_type in *.
      destruct (arg_callback_type a) as [s|]; [|discriminate].
      now rewrite Hc. }
  rewrite (resolve_callback_type_valid _ Hc), bind_ret.
  destruct (valid_precond (arg_A a) (arg_M a)) eqn:Hp.
  2:{ left. unfold check_precond, valid_precond in *.
      destruct (arg_M a) as [M|]; [|discriminate]. now rewrite Hp. }
  rewrite (check_precond_valid _ _ Hp), bind_ret.
  fold (gmres_restart a).
  destruct (Z.ltb_spec (gmres_restart a) 0) as [Hr | Hr]; [now left|].
  right. repeat split; trivial.
Qed.

(** X5: gmres ends on every input: a cycle that completes advances the
    count by restart >= 1, and maxiter cycles at most fit the budget. *)
Theorem gmres_terminates (a : solver_args) : snd (gmres a) <> OutOfFuel.
Proof.
  destruct (gmres_early_outcome a) as [H | Hreach]; [exact H|].
  rewrite (gmres_reaches_eq Hreach), snd_bind.
  destruct (snd (gmres_call_loop a)) as [fin | e |] eqn:Hloop; try discriminate.
  - rewrite snd_bind.
    destruct (gmres_info_cases (budget a) (gmres_tol a) (snd (fst fin)) (snd fin))
      as [E | (_ & E)]; rewrite E; discriminate.
  - exfalso. revert Hloop. apply gmres_loop_fuel.
    + now destruct Hreach as (_ & _ & _ & Hr).
    + lia.
Qed.
End Status.

Section Costs.
Context {L : ArrayLib}.

Lemma count_matvec_app (t t' : list event) :
  count_matvec (t ++ t') = (count_matvec t + count_matvec t')%nat.
Proof. unfold count_matvec. now rewrite filter_app, length_app. Qed.

Lemma count_psolve_app (t t' : list event) :
  count_psolve (t ++ t') = (count_psolve t + count_psolve t')%nat.
Proof. unfold count_psolve. now rewrite filter_app, length_app. Qed.

Lemma cg_pass_log_counts (A : operand) (M : option operand) (callback : bool)
    (atol : real) (st : cg_state) :
  count_matvec (cg_pass_log A M callback atol st) = 1%nat /\
  count_psolve (cg_pass_log A M callback atol st) = per_pass M.
Proof.
  unfold cg_pass_log, cg_spec_applies. destruct M, callback; split; reflexivity.
Qed.

(** The loop of cg applies A once, and a supplied M once, in each pass. *)
Lemma cg_loop_counts (A : operand) (M : option operand) (callback : bool)
    (maxiter : Z) (atol : real) (fuel : nat) (st : cg_state) :
  let t := fst (cg_loop fuel A M callback maxiter atol st) in
  count_matvec t = length (iterates t) /\
  count_psolve t = (per_pass M * length (iterates t))%nat.
Proof.
  revert fuel st.
  apply (@cg_loop_ind _ A M callback maxiter atol (fun _ res =>
    count_matvec (fst res) = length (iterates (fst res)) /\
    count_psolve (fst res) = (per_pass M * length (iterates (fst res)))%nat)).
  - intros st _. cbn. split; [reflexivity | lia].
  - intros st _. cbn. split; [reflexivity | lia].
  - intros st _ _. cbn [fst].
    destruct (cg_pass_log_counts A M callback atol st) as (-> & ->).
    rewrite cg_pass_log_iterates. cbn [length]. lia.
  - intros st res _ _ (IH1 & IH2). cbn [fst].
    rewrite count_matvec_app, count_psolve_app, iterates_app, length_app.
    destruct (cg_pass_log_counts A M callback atol st) as (-> & ->).
    rewrite cg_pass_log_iterates, IH1, IH2. cbn [length]. lia.
Qed.

(** X6: the cost of cg.  A valid call with n >= 1 applies A exactly
    iters + 1 times (once for r0 at line 72, once per iteration at line 84)
    and a supplied M exactly iters times (line 76), iters being the count
    the loop ends with; with M unspecified nothing else is applied. *)
Theorem cg_application_counts (a : solver_args) :
  valid_cg_args a = true ->
  shape0 (arg_A a) <> 0 ->
  exists st : cg_state,
    snd (cg_iterate (arg_A a) (arg_M a) (arg_callback a) (budget a)
           (cg_atol (arg_tol a) (arg_atol a) (norm (rhs a)))
           (rhs a) (guess a)) = Returns st /\
    Z.of_nat (count_matvec (fst (cg a))) = st_iters st + 1 /\
    Z.of_nat (count_psolve (fst (cg a)))
    = Z.of_nat (per_pass (arg_M a)) * st_iters st.
Proof.
  intros Hv Hn.
  set (atol := cg_atol (arg_tol a) (arg_atol a) (norm (rhs a))).
  pose (st0 := cg_start (arg_A a) (rhs a) (guess a)).
  destruct (@cg_loop_refines _ (arg_A a) (arg_M a) (arg_callback a) (budget a)
              atol (Z.to_nat (budget a)) st0) as (st & Hr & _ & _).
  { simpl. lia. }
  { simpl. lia. }
  exists st. rewrite cg_iterate_eq. cbn [snd]. split; [exact Hr|].
  destruct (cg_log_eq a Hv Hn) as (tail & -> & Htail). fold atol st0.
  pose proof (cg_loop_count _ _ _ _ _ _ _ Hr) as Hcount.
  destruct (cg_loop_counts (arg_A a) (arg_M a) (arg_callback a) (budget a) atol
              (Z.to_nat (budget a)) st0) as (Hm & Hp).
  cbv zeta in Hm, Hp.
  change (EvMatvec (guess a) :: ?t) with ([EvMatvec (guess a)] ++ t).
  rewrite !count_matvec_app, !count_psolve_app, Hm, Hp.
  replace (count_matvec tail) with 0%nat
    by (destruct Htail as [-> | (r & ->)]; reflexivity).
  replace (count_psolve tail) with 0%nat
    by (destruct Htail as [-> | (r & ->)]; reflexivity).
  cbn [count_matvec count_psolve filter is_matvec is_psolve length].
  cbn [st0 cg_start st_iters] in Hcount. split; nia.
Qed.

(** X7: cg never tests the residual of the guess.  With maxiter >= 1 a valid
    call with n >= 1 runs at least one iteration, whatever r0 is: the test of
    line 92 comes after the update of lines 86-87. *)
Theorem cg_runs_one_iteration (a : solver_args) :
  valid_cg_args a = true ->
  shape0 (arg_A a) <> 0 ->
  1 <= budget a ->
  exists st : cg_state,
    snd (cg_iterate (arg_A a) (arg_M a) (arg_callback a) (budget a)
           (cg_atol (arg_tol a) (arg_atol a) (norm (rhs a)))
           (rhs a) (guess a)) = Returns st /\
    1 <= st_iters st /\
    hd_error (iterates (fst (cg a)))
    = Some (it_x (cg_spec_step (arg_A a) (arg_M a) true
                    (cg_spec_start (arg_A a) (rhs a) (guess a)))).
Proof.
  intros Hv Hn Hm.
  set (atol := cg_atol (arg_tol a) (arg_atol a) (norm (rhs a))).
  pose (st0 := cg_start (arg_A a) (rhs a) (guess a)).
  destruct (cg_log_eq a Hv Hn) as (tail & Hlog & _). fold atol st0 in Hlog.
  rewrite Hlog, cg_iterate_eq. cbn [snd]. fold atol st0.
  destruct (Z.to_nat (budget a)) as [|fuel] eqn:Hfuel; [lia|].
  rewrite cg_loop_pass by (simpl; lia).
  assert (Hfirst : iterates (cg_pass_log (arg_A a) (arg_M a) (arg_callback a)
                               atol st0)
                   = [it_x (cg_spec_step (arg_A a) (arg_M a) true
                              (cg_spec_start (arg_A a) (rhs a) (guess a)))]).
  { now rewrite cg_pass_log_iterates. }
  destruct (rleb _ atol).
  - eexists. split; [reflexivity|]. cbn [fst]. split; [simpl; lia|].
    change (EvMatvec (guess a) :: ?t) with ([EvMatvec (guess a)] ++ t).
    now rewrite !iterates_app, Hfirst.
  - destruct (@cg_loop_refines _ (arg_A a) (arg_M a) (arg_callback a) (budget a)
                atol fuel (cg_next (arg_A a) (arg_M a) st0))
      as (st & Hr & _ & Hle).
    { simpl. lia. }
    { simpl. lia. }
    exists st. cbn [fst snd]. split; [exact Hr|]. split; [simpl in Hle; lia|].
    change (EvMatvec (guess a) :: ?t) with ([EvMatvec (guess a)] ++ t).
    now rewrite !iterates_app, Hfirst.
Qed.

(** X8: with a negative maxiter cg runs no iteration and no residual test: a
    valid call with n >= 1 applies A once (line 72) and returns the guess
    with info 0, line 96 finding iters = 0 <> maxiter. *)
Theorem cg_negative_budget_returns_guess (a : solver_args) :
  valid_cg_args a = true ->
  shape0 (arg_A a) <> 0 ->
  budget a < 0 ->
  cg a = ([EvMatvec (guess a)], Returns (guess a, 0)).
Proof.
  intros Hv Hn Hm. rewrite cg_valid_eq, cg_iterate_eq by trivial.
  rewrite cg_loop_done by (simpl; lia). cbn [fst snd ret].
  rewrite bind_returns. cbn [fst snd].
  unfold cg_info. cbn [cg_start st_iters st_x].
  replace (0 =? budget a) with false by (symmetry; apply Z.eqb_neq; lia).
  reflexivity.
Qed.
End Costs.

Section GmresCosts.
Context {L : ArrayLib}.
Variables (A : operand) (M : option operand) (callback_type : option string).
Variables (b : vec) (b_norm : real) (maxiter : Z) (atol : real) (restart : Z).

Lemma psolve_counts (x : vec) :
  count_matvec (fst (psolve M x)) = 0%nat /\
  count_psolve (fst (psolve M x)) = per_pass M.
Proof. rewrite psolve_eq. destruct M; split; reflexivity. Qed.

(** Lines 202-209: each Arnoldi step applies A once and a supplied M once. *)
Lemma arnoldi_counts (steps : nat) : forall (j : nat) (V H : list vec),
  count_matvec (fst (arnoldi steps j A M restart V H)) = steps /\
  count_psolve (fst (arnoldi steps j A M restart V H))
  = (per_pass M * steps)%nat.
Proof.
  induction steps as [|steps IH]; intros j V H.
  - cbn. split; [reflexivity | lia].
  - cbn [arnoldi]. rewrite psolve_eq, bind_returns. cbn [fst snd].
    rewrite matvec_eq, bind_returns. cbn [fst snd].
    match goal with
    | |- context [arnoldi steps ?j' A M restart ?V' ?H'] =>
        destruct (IH j' V' H') as (IH1 & IH2)
    end.
    rewrite !count_matvec_app, !count_psolve_app, IH1, IH2.
    destruct M; cbn; split; lia.
Qed.

(** A cycle that returns has run restart Arnoldi steps, restart >= 1 or
    negative being excluded by line 183, and has advanced the count. *)
Lemma gmres_cycle_counts (x r : vec) (r_norm : real) (iters : Z)
    (next : vec * Z) :
  snd (gmres_cycle A M restart x r r_norm iters) = Returns next ->
  restart <> 0 /\ snd next = iters + restart /\
  count_matvec (fst (gmres_cycle A M restart x r r_norm iters))
  = Z.to_nat restart /\
  count_psolve (fst (gmres_cycle A M restart x r r_norm iters))
  = (per_pass M * Z.to_nat restart)%nat.
Proof.
  unfold gmres_cycle.
  destruct (Z.eqb_spec restart 0) as [E | E]; [discriminate|].
  match goal with
  | |- context [arnoldi ?s ?j A M restart ?V ?H] =>
      destruct (arnoldi_counts s j V H) as (Hm & Hp);
      destruct (arnoldi_quiet A M restart s j V H) as (_ & VH & Hr);
      destruct (arnoldi s j A M restart V H) as [t out]
  end.
  cbn [fst snd] in Hm, Hp, Hr. subst out. rewrite bind_returns.
  destruct (lstsq (snd VH) _) as [y|]; cbn [fst snd ret raise];
    [|discriminate].
  intros [= <-]. rewrite app_nil_r. cbn [snd]. auto.
Qed.

Lemma gmres_head_log_counts (x : vec) (iters : Z) :
  count_matvec (gmres_head_log A M callback_type b b_norm atol x iters) = 1%nat /\
  count_psolve (gmres_head_log A M callback_type b b_norm atol x iters)
  = per_pass M.
Proof.
  unfold gmres_head_log.
  rewrite !count_matvec_app, !count_psolve_app.
  destruct (psolve_counts x) as (-> & ->).
  destruct (@gmres_callback_log_cases _ callback_type b_norm iters
              (gmres_mx M x) (gmres_r_norm A M b x)) as [-> | (arg & ->)];
    cbn; split; lia.
Qed.

(** The loop of gmres applies A, and a supplied M, once at each cycle
    boundary and restart times in each cycle; the count it returns is restart
    times the number of cycles. *)
Lemma gmres_loop_counts (fuel : nat) : forall (x : vec) (iters : Z)
    (fin : vec * real * Z),
  0 <= restart ->
  snd (gmres_loop fuel A M callback_type b b_norm maxiter atol restart x iters)
  = Returns fin ->
  let t := fst (gmres_loop fuel A M callback_type b b_norm maxiter atol
                  restart x iters) in
  Z.of_nat (count_matvec t) = Z.of_nat (length (cycles t)) + (snd fin - iters) /\
  Z.of_nat (count_psolve t)
  = Z.of_nat (per_pass M) * (Z.of_nat (length (cycles t)) + (snd fin - iters)) /\
  snd fin - iters = restart * (Z.of_nat (length (cycles t)) - 1).
Proof.
  induction fuel as [|fuel IH]; intros x iters fin Hr; rewrite gmres_loop_eq;
    destruct (gmres_stop A M b maxiter atol x iters) eqn:Es; cbn [fst snd];
    try discriminate.
  - intros [= <-]. cbn [snd]. rewrite gmres_head_log_cycles.
    destruct (gmres_head_log_counts x iters) as (-> & ->). cbn [length]. lia.
  - intros [= <-]. cbn [snd]. rewrite gmres_head_log_cycles.
    destruct (gmres_head_log_counts x iters) as (-> & ->). cbn [length]. lia.
  - cbv zeta.
    destruct (snd (gmres_cycle A M restart x (gmres_r A M b x)
                     (gmres_r_norm A M b x) iters)) as [next | e |] eqn:Hc;
      cbn [fst snd]; try discriminate.
    intros Hret.
    destruct (gmres_cycle_counts _ _ _ _ Hc) as (Hne & Hnext & Hm & Hp).
    destruct (gmres_cycle_cases A M restart x (gmres_r A M b x)
                (gmres_r_norm A M b x) iters)
      as [(E0 & _) | (_ & t & Hq & Hcase)]; [contradiction|].
    assert (Hcyc : cycles (fst (gmres_cycle A M restart x (gmres_r A M b x)
                                 (gmres_r_norm A M b x) iters)) = []).
    { destruct Hcase as [E | (x' & E)]; rewrite E; cbn [fst];
        now destruct (quiet_projections Hq) as (_ & -> & _). }
    destruct (IH _ _ _ Hr Hret) as (IH1 & IH2 & IH3).
    rewrite !count_matvec_app, !count_psolve_app, !cycles_app, !length_app.
    rewrite gmres_head_log_cycles, Hcyc, Hm, Hp.
    destruct (gmres_head_log_counts x iters) as (-> & ->).
    cbn [length app]. rewrite !Nat2Z.inj_add, Nat2Z.inj_mul, Z2Nat.id by lia.
    rewrite IH1, IH2. rewrite Hnext in *.
    set (c := Z.of_nat (length (cycles (fst (gmres_loop fuel A M callback_type
                 b b_norm maxiter atol restart (fst next) (iters + restart)))))) in *.
    change (Z.of_nat 1) with 1. change (Z.of_nat 0) with 0.
    repeat split; [ring | ring | ].
    replace (snd fin - iters) with (snd fin - (iters + restart) + restart) by ring.
    rewrite IH3. ring.
Qed.
End GmresCosts.

Section GmresEdges.
Context {L : ArrayLib}.

(** X9: the cost of gmres.  When a call of gmres that reaches its loop
    returns, A has been applied once at each cycle boundary (line 190) and
    restart times in each cycle (line 204), and a supplied M as many times
    (lines 189 and 203): with k boundaries, k + restart (k - 1) times, the
    count at the break being restart (k - 1). *)
Theorem gmres_application_counts (a : solver_args) (mx : vec) (r_norm : real)
    (iters : Z) :
  reaches_loop a ->
  snd (gmres_call_loop a) = Returns (mx, r_norm, iters) ->
  let k := Z.of_nat (length (cycles (fst (gmres a)))) in
  iters = gmres_restart a * (k - 1) /\
  Z.of_nat (count_matvec (fst (gmres a))) = k + iters /\
  Z.of_nat (count_psolve (fst (gmres a)))
  = Z.of_nat (per_pass (arg_M a)) * (k + iters).
Proof.
  intros Hreach Hloop k. subst k.
  destruct (gmres_log_eq Hreach) as (tail & -> & Htail).
  assert (Hr : 0 <= gmres_restart a) by now destruct Hreach as (_ & _ & _ & H).
  unfold gmres_call_loop in *.
  destruct (@gmres_loop_counts _ _ _ _ _ _ _ _ _ _ _ _ _ Hr Hloop)
    as (H1 & H2 & H3).
  cbv zeta in H1, H2, H3. cbn [snd] in H1, H2, H3.
  rewrite count_matvec_app, count_psolve_app, cycles_app, length_app.
  replace (count_matvec tail) with 0%nat
    by (destruct Htail as [-> | (r & ->)]; reflexivity).
  replace (count_psolve tail) with 0%nat
    by (destruct Htail as [-> | (r & ->)]; reflexivity).
  replace (length (cycles tail)) with 0%nat
    by (destruct Htail as [-> | (r & ->)]; reflexivity).
  rewrite !Nat.add_0_r. repeat split; lia.
Qed.

(** X10: when the first termination check of gmres breaks the loop, because
    the preconditioned guess already meets the tolerance or because
    maxiter <= 0, gmres runs no cycle: it returns (M.apply(x0), 0) after one
    application of A.  In the maxiter <= 0 case the status is 0 although the
    tolerance may not be met. *)
Theorem gmres_first_check_breaks (a : solver_args) :
  reaches_loop a ->
  rleb (gmres_r_norm (arg_A a) (arg_M a) (rhs a) (guess a)) (gmres_tol a) = true
  \/ budget a <= 0 ->
  snd (gmres a) = Returns (apply_precond (arg_M a) (guess a), 0) /\
  cycles (fst (gmres a))
  = [(guess a, apply_precond (arg_M a) (guess a),
      gmres_r_norm (arg_A a) (arg_M a) (rhs a) (guess a))] /\
  count_matvec (fst (gmres a)) = 1%nat.
Proof.
  intros Hreach Hstop.
  assert (Hs : gmres_stop (arg_A a) (arg_M a) (rhs a) (budget a) (gmres_tol a)
                 (guess a) 0 = true).
  { unfold gmres_stop. destruct Hstop as [-> | Hm]; [reflexivity|].
    apply orb_true_iff. right. now apply Z.leb_le. }
  assert (Hloop : gmres_call_loop a =
                  (gmres_head_log (arg_A a) (arg_M a) (resolved_callback_type a)
                     (rhs a) (norm (rhs a)) (gmres_tol a) (guess a) 0,
                   Returns (gmres_mx (arg_M a) (guess a),
                            gmres_r_norm (arg_A a) (arg_M a) (rhs a) (guess a),
                            0))).
  { unfold gmres_call_loop. now rewrite gmres_loop_eq, Hs. }
  rewrite (gmres_reaches_eq Hreach), Hloop, bind_returns. cbn [fst snd].
  destruct (gmres_info_cases (budget a) (gmres_tol a)
              (gmres_r_norm (arg_A a) (arg_M a) (rhs a) (guess a)) 0)
    as [E | (E0 & E)]; rewrite E, ?bind_ret, ?bind_returns; cbn [fst snd ret].
  - rewrite !app_nil_r, gmres_head_log_cycles.
    destruct (gmres_head_log_counts (arg_A a) (arg_M a)
                (resolved_callback_type a) (rhs a) (norm (rhs a)) (gmres_tol a)
                (guess a) 0) as (-> & _).
    repeat split.
  - rewrite cycles_app, count_matvec_app, gmres_head_log_cycles.
    destruct (gmres_head_log_counts (arg_A a) (arg_M a)
                (resolved_callback_type a) (rhs a) (norm (rhs a)) (gmres_tol a)
                (guess a) 0) as (-> & _).
    rewrite <- E0. cbn. repeat split.
    now destruct (rleb _ (gmres_tol a)).
Qed.
End GmresEdges.

Section ArnoldiShapes.
Context {L : ArrayLib}.
Variables (A : operand) (M : option operand) (restart : Z).

(* V.conj().T @ u has one entry per column of V *)
Hypothesis gemvH_length :
  forall (V : list vec) (u : vec), length (gemvH V u) = length V.

(** At step j the basis holds min(j + 1, restart) columns and H the j
    columns already computed; column j of V is in range whenever it is
    read. *)
Lemma arnoldi_shapes (steps : nat) : forall (j : nat) (V H : list vec)
    (VH : list vec * list vec),
  length V = Nat.min (S j) (Z.to_nat restart) ->
  length H = j ->
  Forall (fun c => length c = S (Z.to_nat restart)) H ->
  (j + steps)%nat = Z.to_nat restart ->
  snd (arnoldi steps j A M restart V H) = Returns VH ->
  length (fst VH) = Z.to_nat restart /\
  length (snd VH) = Z.to_nat restart /\
  Forall (fun c => length c = S (Z.to_nat restart)) (snd VH).
Proof.
  induction steps as [|steps IH]; intros j V H VH HV HH Hcols Hj.
  - cbn. intros [= <-]. cbn [fst snd]. repeat split; trivial; lia.
  - cbn [arnoldi]. rewrite psolve_eq, bind_returns. cbn [fst snd].
    rewrite matvec_eq, bind_returns. cbn [fst snd].
    apply IH.
    + destruct (Z.ltb_spec (Z.of_nat j + 1) restart);
        rewrite ?length_app; cbn [length]; lia.
    + rewrite length_app. cbn [length]. lia.
    + apply Forall_app. split; [exact Hcols|]. constructor; [|constructor].
      rewrite length_app, gemvH_length, length_firstn. cbn [length].
      rewrite repeat_length. lia.
    + lia.
Qed.

(** X11: the Arnoldi process of one cycle (lines 202-209), started from the
    single column r / r_norm with restart >= 1, ends with a basis V of
    restart columns and a Hessenberg matrix H of restart columns of
    restart + 1 entries each: the least-squares problem of line 213 is
    (restart + 1) x restart. *)
Theorem arnoldi_builds_hessenberg_system (V0 : vec) :
  1 <= restart ->
  exists V H : list vec,
    snd (arnoldi (Z.to_nat restart) 0 A M restart [V0] []) = Returns (V, H) /\
    length V = Z.to_nat restart /\
    length H = Z.to_nat restart /\
    Forall (fun c => length c = S (Z.to_nat restart)) H.
Proof.
  intros Hr.
  destruct (arnoldi_quiet A M restart (Z.to_nat restart) 0 [V0] [])
    as (_ & [V H] & Hret).
  exists V, H. split; [exact Hret|].
  change V with (fst (V, H)). change H with (snd (V, H)) at 2 3.
  eapply arnoldi_shapes; [ | | | | exact Hret]; cbn [length];
    try constructor; lia.
Qed.
End ArnoldiShapes.

Section ArgumentErrors.
Context {L : ArrayLib}.

(** X12: gmres validates callback_type before it looks at callback and
    before it checks M (lines 167-181): on a valid system with n >= 1, a b of
    nonzero norm and a valid x0, an unknown callback_type raises the
    ValueError of line 170, whether or not a callback is supplied and
    whatever M is, and nothing is applied. *)
Theorem gmres_checks_callback_type_without_callback (a : solver_args)
    (s : string) :
  valid_system (arg_A a) (arg_b a) = true ->
  valid_guess (shape0 (arg_A a)) (arg_x0 a) = true ->
  shape0 (arg_A a) <> 0 ->
  req0 (norm (rhs a)) = false ->
  arg_callback_type a = Some s ->
  valid_callback_type (Some s) = false ->
  gmres a = ([], Raises (ValueError_callback_type s)).
Proof.
  intros Hs Hg Hn Hb Hct Hbad.
  unfold gmres. rewrite (check_system_valid _ _ Hs), bind_ret. cbn [fst snd].
  apply Z.eqb_neq in Hn. rewrite Hn. fold (rhs a). rewrite Hb.
  rewrite (initial_guess_valid _ Hg), bind_ret.
  unfold resolve_callback_type. rewrite Hct.
  unfold valid_callback_type in Hbad. now rewrite Hbad.
Qed.

(** X13: on a valid system with n >= 1, an x0 whose shape is neither (n,)
    nor (n, 1) makes cg raise the ValueError of line 58, whatever M is; with a
    valid x0, an M whose shape differs from the shape of A makes cg raise the
    ValueError of line 70, and gmres the one of line 181 when b has a nonzero
    norm and callback_type is valid.  Nothing is applied before either
    error. *)
Theorem guess_and_preconditioner_errors (a : solver_args) :
  valid_system (arg_A a) (arg_b a) = true ->
  shape0 (arg_A a) <> 0 ->
  (valid_guess (shape0 (arg_A a)) (arg_x0 a) = false ->
   cg a = ([], Raises ValueError_x0)) /\
  (valid_guess (shape0 (arg_A a)) (arg_x0 a) = true ->
   valid_precond (arg_A a) (arg_M a) = false ->
   cg a = ([], Raises ValueError_precond) /\
   (req0 (norm (rhs a)) = false ->
    valid_callback_type (arg_callback_type a) = true ->
    gmres a = ([], Raises ValueError_precond))).
Proof.
  intros Hs Hn. apply Z.eqb_neq in Hn.
  assert (Hp : valid_precond (arg_A a) (arg_M a) = false ->
               check_precond (arg_A a) (arg_M a) = raise ValueError_precond).
  { unfold valid_precond, check_precond.
    destruct (arg_M a) as [M|]; [intros -> | discriminate]. reflexivity. }
  split.
  - intros Hg. unfold cg.
    rewrite (check_system_valid _ _ Hs), bind_ret. cbn [fst snd]. rewrite Hn.
    unfold valid_guess in Hg. unfold initial_guess.
    destruct (arg_x0 a) as [x0|]; [|discriminate]. now rewrite Hg.
  - intros Hg Hbad. split.
    + unfold cg.
      rewrite (check_system_valid _ _ Hs), bind_ret. cbn [fst snd]. rewrite Hn.
      rewrite (initial_guess_valid _ Hg), bind_ret.
      now rewrite (Hp Hbad).
    + intros Hb Hc. unfold gmres.
      rewrite (check_system_valid _ _ Hs), bind_ret. cbn [fst snd]. rewrite Hn.
      fold (rhs a). rewrite Hb.
      rewrite (initial_guess_valid _ Hg), bind_ret.
      rewrite (resolve_callback_type_valid _ Hc), bind_ret.
      now rewrite (Hp Hbad).
Qed.

End ArgumentErrors.

Section StatusRange.
Context {L : ArrayLib}.

Local Ltac early :=
  left; intros ? ? Hret; cbn in Hret; congruence.

Lemma cg_early_status (a : solver_args) :
  (forall sol info, snd (cg a) = Returns (sol, info) -> info = 0) \/
  (valid_cg_args a = true /\ shape0 (arg_A a) <> 0).
Proof.
  unfold valid_cg_args, valid_system, square_matrix, cg, check_system.
  destruct (Nat.eqb (ndim (arg_A a)) 2); [|early].
  destruct (shape0 (arg_A a) =? shape1 (arg_A a)); [|early].
  destruct (supported_dtype (op_dtype (arg_A a))); [|early].
  destruct (vector_shape (shape0 (arg_A a)) (arr_shape (arg_b a))); [|early].
  cbn [negb orb andb]. rewrite bind_ret. cbn [fst snd].
  destruct (Z.eqb_spec (shape0 (arg_A a)) 0) as [E | E]; [early|].
  unfold initial_guess, valid_guess.
  destruct (arg_x0 a) as [x0|].
  - destruct (vector_shape (shape0 (arg_A a)) (arr_shape x0)); [|early].
    unfold check_precond, valid_precond. destruct (arg_M a) as [M|].
    + destruct (shape_eqb _ _); [now right | early].
    + now right.
  - unfold check_precond, valid_precond. destruct (arg_M a) as [M|].
    + destruct (shape_eqb _ _); [now right | early].
    + now right.
Qed.

Lemma gmres_early_status (a : solver_args) :
  (forall sol info, snd (gmres a) = Returns (sol, info) -> info = 0) \/
  reaches_loop a.
Proof.
  unfold reaches_loop, valid_gmres_args, valid_cg_args, valid_system,
    square_matrix, gmres, check_system.
  destruct (Nat.eqb (ndim (arg_A a)) 2); [|early].
  destruct (shape0 (arg_A a) =? shape1 (arg_A a)); [|early].
  destruct (supported_dtype (op_dtype (arg_A a))); [|early].
  destruct (vector_shape (shape0 (arg_A a)) (arr_shape (arg_b a))); [|early].
  cbn [negb orb andb]. rewrite bind_ret. cbn [fst snd].
  destruct (Z.eqb_spec (shape0 (arg_A a)) 0) as [E | E]; [early|].
  fold (rhs a). destruct (req0 (norm (rhs a))); [early|].
  destruct (valid_guess (shape0 (arg_A a)) (arg_x0 a)) eqn:Hg.
  2:{ unfold initial_guess, valid_guess in *.
      destruct (arg_x0 a) as [x0|]; [|discriminate]. rewrite Hg. early. }
  rewrite (initial_guess_valid _ Hg), bind_ret.
  destruct (valid_callback_type (arg_callback_type a)) eqn:Hc.
  2:{ unfold resolve_callback_type, valid_callback_type in *.
      destruct (arg_callback_type a) as [s|]; [|discriminate].
      rewrite Hc. early. }
  rewrite (resolve_callback_type_valid _ Hc), bind_ret.
  destruct (valid_precond (arg_A a) (arg_M a)) eqn:Hp.
  2:{ unfold check_precond, valid_precond in *.
      destruct (arg_M a) as [M|]; [|discriminate]. rewrite Hp. early. }
  rewrite (check_precond_valid _ _ Hp), bind_ret.
  fold (gmres_restart a).
  destruct (Z.ltb_spec (gmres_restart a) 0) as [Hr | Hr]; [early|].
  right. repeat split; trivial.
Qed.

(** X14: the status is never a partial count.  Whenever cg or gmres
    returns, info is 0 or maxiter (10 n when maxiter is unspecified), on
    every input. *)
Theorem status_is_zero_or_budget (a : solver_args) (sol : vec) (info : Z) :
  snd (cg a) = Returns (sol, info) \/ snd (gmres a) = Returns (sol, info) ->
  info = 0 \/ info = budget a.
Proof.
  intros [Hret | Hret].
  - destruct (cg_early_status a) as [H | (Hv & Hn)]; [left; eauto|].
    rewrite cg_valid_eq, snd_bind in Hret by trivial.
    destruct (snd (cg_iterate _ _ _ _ _ _ _)) as [st | e |]; try discriminate.
    rewrite snd_bind in Hret.
    destruct (cg_info_cases (budget a)
                (cg_atol (arg_tol a) (arg_atol a) (norm (rhs a))) st)
      as [E | [E | (resid & _ & _ & E)]]; rewrite E in Hret; cbn in Hret;
      try discriminate.
    + injection Hret as _ <-. now left.
    + injection Hret as _ <-. destruct (rleb resid _); auto.
  - destruct (gmres_early_status a) as [H | Hreach]; [left; eauto|].
    rewrite (gmres_reaches_eq Hreach), snd_bind in Hret.
    destruct (snd (gmres_call_loop a)) as [[[mx r_norm] iters] | e |] eqn:Hloop;
      try discriminate.
    rewrite snd_bind in Hret. cbn [fst snd] in Hret.
    destruct (gmres_info_cases (budget a) (gmres_tol a) r_norm iters)
      as [E | (_ & E)]; rewrite E in Hret; cbn in Hret.
    + injection Hret as _ <-. now left.
    + injection Hret as _ <-. destruct (rleb r_norm _); auto.
Qed.
End StatusRange.

Section PaddingCallback.
Variable X : Type.
Variable ten : X.

Lemma slice_bound_range (n i : Z) :
  0 <= n -> 0 <= slice_bound n i <= n.
Proof.
  intros Hn. unfold slice_bound. destruct (Z.ltb_spec i 0); lia.
Qed.

Lemma assign_slice_length (c : X) (start stop : option Z) (v : list X) :
  length (assign_slice c start stop v) = length v.
Proof.
  unfold assign_slice.
  set (n := Z.of_nat (length v)).
  assert (Hn : 0 <= n) by (subst n; lia).
  set (lo := match start with None => 0 | Some i => slice_bound n i end).
  set (hi := match stop with None => n | Some i => slice_bound n i end).
  assert (Hlo : 0 <= lo <= n).
  { subst lo. destruct start; [now apply slice_bound_range | lia]. }
  assert (Hhi : 0 <= hi <= n).
  { subst hi. destruct stop; [now apply slice_bound_range | lia]. }
  destruct (Z.ltb_spec lo hi); [|reflexivity].
  rewrite !length_app, length_firstn, repeat_length, length_skipn. lia.
Qed.

(** X15: [_padwithtens] keeps the length of the vector, for every vector
    and every pad_width, negative or larger than the vector included. *)
Theorem padwithtens_keeps_length (vector : list X) (pad_width : Z * Z) :
  length (_padwithtens ten vector pad_width) = length vector.
Proof.
  unfold _padwithtens. now rewrite !assign_slice_length.
Qed.

(** X16: with pad widths p0 >= 0 and p1 >= 1 that fit the vector,
    [_padwithtens] writes 10 over the first p0 and the last p1 entries and
    leaves the entries between them as they were. *)
Theorem padwithtens_pads_both_ends (vector : list X) (p0 p1 : Z) :
  0 <= p0 -> 1 <= p1 -> p0 + p1 <= Z.of_nat (length vector) ->
  _padwithtens ten vector (p0, p1) =
  repeat ten (Z.to_nat p0)
    ++ firstn (length vector - Z.to_nat p0 - Z.to_nat p1)
         (skipn (Z.to_nat p0) vector)
    ++ repeat ten (Z.to_nat p1).
Proof.
  intros H0 H1 Hfit. unfold _padwithtens. cbn [fst snd].
  set (n := Z.of_nat (length vector)) in *.
  assert (E1 : assign_slice ten None (Some p0) vector
               = repeat ten (Z.to_nat p0) ++ skipn (Z.to_nat p0) vector).
  { unfold assign_slice. fold n. unfold slice_bound.
    replace (p0 <? 0) with false by (symmetry; apply Z.ltb_ge; lia).
    rewrite Z.min_l by lia.
    destruct (Z.ltb_spec 0 p0).
    - now rewrite Z.sub_0_r.
    - replace p0 with 0 by lia. reflexivity. }
  rewrite E1. unfold assign_slice.
  assert (Hlen : length (repeat ten (Z.to_nat p0) ++ skipn (Z.to_nat p0) vector)
                 = length vector).
  { rewrite length_app, repeat_length, length_skipn. lia. }
  rewrite Hlen. fold n. unfold slice_bound.
  replace (- p1 <? 0) with true by (symmetry; apply Z.ltb_lt; lia).
  rewrite Z.max_l by lia.
  replace (- p1 + n <? n) with true by (symmetry; apply Z.ltb_lt; lia).
  replace (n - (- p1 + n)) with p1 by lia.
  rewrite (skipn_all2 (n := Z.to_nat n)) by (subst n; lia).
  rewrite app_nil_r, firstn_app, repeat_length.
  rewrite firstn_all2 by (rewrite repeat_length; lia).
  rewrite <- app_assoc. do 2 f_equal. f_equal. subst n. lia.
Qed.

(** X17: a pad width of 0 after the vector does not leave the end alone:
    [-pad_width[1]:] is then the slice [0:], and [_padwithtens] writes 10 over
    every entry, whatever pad_width[0] is. *)
Theorem padwithtens_zero_after_overwrites (vector : list X) (p0 : Z) :
  _padwithtens ten vector (p0, 0) = repeat ten (length vector).
Proof.
  unfold _padwithtens. cbn [fst snd].
  set (v1 := assign_slice ten None (Some p0) vector).
  assert (Hlen : length v1 = length vector) by apply assign_slice_length.
  unfold assign_slice. rewrite Hlen. cbn [Z.opp]. unfold slice_bound.
  cbn [Z.ltb Z.compare]. rewrite Z.min_l by lia.
  destruct (Z.ltb_spec 0 (Z.of_nat (length vector))) as [Hpos | Hzero].
  - rewrite Z.sub_0_r, Nat2Z.id. cbn [Z.to_nat firstn app].
    rewrite skipn_all2 by lia. now rewrite app_nil_r.
  - assert (E : length vector = 0%nat) by lia.
    rewrite E. apply length_zero_iff_nil. lia.
Qed.
End PaddingCallback.

(** * The properties on concrete calls *)

Section Witnesses.
Import Float64 Examples.

(* the scenario of section 8: one iteration, x = [3, 4], info = 0 *)
Example identity2_solved :
  cg identity2 =
  ([EvMatvec [0; 0]; EvMatvec [3; 4]; EvIterate [3; 4];
    EvTest 0 (tol_default * 5)]%float,
   Returns ([3; 4]%float, 0)).
Proof. vm_compute. reflexivity. Qed.

(* the tests of that call compare against tol * norm(b) = 1e-5 * 5 *)
Example identity2_tolerances :
  tolerances (fst (cg identity2)) = [(tol_default * 5)%float] /\
  tolerances (fst (gmres identity2)) = [(tol_default * 5)%float].
Proof. vm_compute. split; reflexivity. Qed.

(* C6 at the 0x0 system *)
Lemma trivial_system_returns_empty_witness :
  valid_system (arg_A empty_system) (arg_b empty_system) = true /\
  shape0 (arg_A empty_system) = 0 /\
  cg empty_system = ([], Returns ([], 0)) /\
  gmres empty_system = ([], Returns ([], 0)).
Proof.
  split; [reflexivity | split; [reflexivity|]].
  apply (@trivial_system_returns_empty lib empty_system); reflexivity.
Defined.

(* C7 at A = [[2]], b = [0] *)
Lemma gmres_zero_rhs_returns_b_witness :
  valid_gmres_args zero_rhs = true /\
  gmres zero_rhs = ([], Returns ([0%float], 0)) /\
  applications (fst (gmres zero_rhs)) = [].
Proof.
  split; [reflexivity|].
  destruct (@gmres_zero_rhs_returns_b lib zero_rhs) as (H1 & H2 & H3).
  - reflexivity.
  - vm_compute. discriminate.
  - reflexivity.
  - split; [exact H1 | exact H3].
Defined.

(* C9 at the same system with an x0 of shape (5,) and an unknown callback_type *)
Lemma gmres_zero_rhs_skips_validation_witness :
  valid_guess (shape0 (arg_A zero_rhs_unchecked)) (arg_x0 zero_rhs_unchecked)
  = false /\
  valid_callback_type (arg_callback_type zero_rhs_unchecked) = false /\
  gmres zero_rhs_unchecked = ([], Returns ([0%float], 0)).
Proof.
  split; [reflexivity | split; [reflexivity|]].
  apply (@gmres_zero_rhs_skips_validation lib zero_rhs_unchecked).
  - reflexivity.
  - vm_compute. discriminate.
  - reflexivity.
  - reflexivity.
  - reflexivity.
Defined.

(* C10 at A = [[2]], b = [4], maxiter = 0 *)
Lemma cg_maxiter_zero_raises_witness :
  valid_cg_args budget_zero = true /\
  arg_maxiter budget_zero = Some 0 /\
  cg budget_zero = ([EvMatvec [0%float]], Raises (UnboundLocalError "resid")).
Proof.
  split; [reflexivity | split; [reflexivity|]].
  apply (@cg_maxiter_zero_raises lib budget_zero).
  - reflexivity.
  - vm_compute. discriminate.
  - reflexivity.
Defined.

(* C5 at the 2x2 identity: the run of section 4.2 stops after one iteration *)
Lemma cg_performs_spec_iteration_witness :
  valid_cg_args identity2 = true /\
  cg_spec_run (arg_A identity2) (arg_M identity2)
    (effective_tolerance (arg_tol identity2) (arg_atol identity2)
       (norm (rhs identity2)))
    (Z.to_nat (budget identity2)) 0
    (cg_spec_start (arg_A identity2) (rhs identity2) (guess identity2))
  = (1%nat, {| it_x := [3; 4]; it_r := [0; 0]; it_p := [3; 4];
               it_rho := 25 |}%float) /\
  [3; 4]%float =
  it_x (snd (cg_spec_run (arg_A identity2) (arg_M identity2)
               (effective_tolerance (arg_tol identity2) (arg_atol identity2)
                  (norm (rhs identity2)))
               (Z.to_nat (budget identity2)) 0
               (cg_spec_start (arg_A identity2) (rhs identity2)
                  (guess identity2)))).
Proof.
  split; [reflexivity | split; [vm_compute; reflexivity|]].
  apply (proj1 (proj2 (@cg_performs_spec_iteration lib identity2 eq_refl
                         ltac:(vm_compute; discriminate))))
    with (info := 0).
  vm_compute. reflexivity.
Defined.

(* C4 at A = [[2]], M = [[0.5]], b = [4]: the loop tracks x = [4] and gmres
   returns mx = M x = [2] *)
Lemma gmres_returns_preconditioned_point_witness :
  snd (gmres (preconditioned None)) = Returns ([2%float], 0) /\
  last_cycle (fst (gmres (preconditioned None)))
  = Some ([4], [2], 0)%float /\
  exists (x : vec) (r_norm : real),
    last_cycle (fst (gmres (preconditioned None))) = Some (x, [2%float], r_norm) /\
    [2%float] = apply_precond (arg_M (preconditioned None)) x.
Proof.
  split; [vm_compute; reflexivity | split; [vm_compute; reflexivity|]].
  apply (@gmres_returns_preconditioned_point lib (preconditioned None)
           [2%float] 0).
  - vm_compute. reflexivity.
  - vm_compute. discriminate.
Defined.

(* C8 at the same system, for cg and for both values of callback_type *)
Lemma callback_once_per_iteration_witness :
  callbacks (fst (cg (preconditioned None))) = [CbVec [2%float]] /\
  callbacks (fst (gmres (preconditioned (Some "x"%string))))
  = [CbVec [0%float]; CbVec [2%float]] /\
  callbacks (fst (gmres (preconditioned None))) = [CbReal 0%float].
Proof.
  destruct (@callback_once_per_iteration lib (preconditioned None) eq_refl)
    as (H1 & _ & _ & H4).
  destruct (@callback_once_per_iteration lib (preconditioned (Some "x"%string))
              eq_refl) as (_ & _ & H3 & _).
  split; [|split].
  - rewrite H1. vm_compute. reflexivity.
  - rewrite (H3 eq_refl). vm_compute. reflexivity.
  - rewrite (H4 (or_intror eq_refl)). vm_compute. reflexivity.
Defined.

(* C3 (amended) at a 2x3 operand, at a b of shape (3,) for a 2x2 float64 A,
   and at a 2x2 int64 A with a b of shape (3,), where the TypeError of the
   dtype check comes first *)
Lemma shape_errors_precede_operator_witness :
  square_matrix (arg_A not_square) = false /\
  cg not_square = ([], Raises (ValueError_square [2; 3])) /\
  gmres not_square = ([], Raises (ValueError_square [2; 3])) /\
  vector_shape (shape0 (arg_A bad_rhs)) (arr_shape (arg_b bad_rhs)) = false /\
  cg bad_rhs = ([], Raises ValueError_b) /\
  gmres bad_rhs = ([], Raises ValueError_b) /\
  supported_dtype (op_dtype (arg_A int_matrix_bad_rhs)) = false /\
  vector_shape (shape0 (arg_A int_matrix_bad_rhs))
               (arr_shape (arg_b int_matrix_bad_rhs)) = false /\
  cg int_matrix_bad_rhs = ([], Raises (TypeError_dtype "l")) /\
  gmres int_matrix_bad_rhs = ([], Raises (TypeError_dtype "l")) /\
  fst (cg int_matrix_bad_rhs) = [].
Proof.
  destruct (@shape_errors_precede_operator lib not_square) as (H1 & _ & _ & _).
  destruct (@shape_errors_precede_operator lib bad_rhs) as (_ & H2 & _ & _).
  destruct (@shape_errors_precede_operator lib int_matrix_bad_rhs)
    as (_ & _ & H3 & H4).
  destruct (H1 eq_refl) as (E1 & E2 & _).
  destruct (H2 eq_refl eq_refl eq_refl) as (E3 & E4 & _).
  destruct (H3 eq_refl eq_refl) as (E5 & E6 & _).
  destruct (H4 (TypeError_dtype "l") eq_refl) as (E7 & _).
  split; [reflexivity|]. split; [exact E1|]. split; [exact E2|].
  split; [reflexivity|]. split; [exact E3|]. split; [exact E4|].
  split; [reflexivity|]. split; [reflexivity|].
  split; [exact E5|]. split; [exact E6|].
  apply E7. rewrite E5. reflexivity.
Defined.

(** C3 (as stated) fails: with a square A of an unsupported scalar type
    (int64) and a b of shape (3,), the dtype check of line 38 comes first and
    cg and gmres raise TypeError, not the ShapeError. *)
Lemma rhs_shape_error_counterexample :
  square_matrix (arg_A int_matrix_bad_rhs) = true /\
  vector_shape (shape0 (arg_A int_matrix_bad_rhs))
               (arr_shape (arg_b int_matrix_bad_rhs)) = false /\
  cg int_matrix_bad_rhs = ([], Raises (TypeError_dtype "l")) /\
  gmres int_matrix_bad_rhs = ([], Raises (TypeError_dtype "l")) /\
  ~ rhs_shape_always_shape_error (@cg lib) /\
  ~ rhs_shape_always_shape_error (@gmres lib).
Proof.
  repeat split; try reflexivity.
  - intros H. destruct (H int_matrix_bad_rhs eq_refl eq_refl) as (e & He & Hk).
    vm_compute in He. injection He as <-. discriminate.
  - intros H. destruct (H int_matrix_bad_rhs eq_refl eq_refl) as (e & He & Hk).
    vm_compute in He. injection He as <-. discriminate.
Qed.

(** C1 (failing input): gmres on the cyclic shift of R^3 with b = e1,
    restart = 2 and maxiter = 3.  The residual norm stays 1, above the
    tolerance 1e-5, at each of the three boundaries; the count goes 0, 2, 4,
    the loop breaks on 4 >= 3, and line 219 finds 4 <> 3: the call returns
    info = 0 although no residual test passed, where the specification has
    info = maxiter = 3. *)
Theorem gmres_overshoot_reports_success :
  budget shift_restart2 = 3 /\
  gmres_restart shift_restart2 = 2 /\
  snd (gmres shift_restart2) = Returns ([0; 0; 0]%float, 0) /\
  map snd (cycles (fst (gmres shift_restart2))) = [1; 1; 1]%float /\
  rleb 1%float (gmres_tol shift_restart2) = false /\
  snd (gmres_call_loop shift_restart2)
  = Returns ([0; 0; 0]%float, 1%float, 4).
Proof. vm_compute. repeat split; reflexivity. Qed.

(* the two calls of gmres below reach the loop *)
Lemma reaches_loop_shift : reaches_loop shift_restart2.
Proof.
  repeat split; try reflexivity; vm_compute; discriminate.
Defined.

Lemma reaches_loop_preconditioned : reaches_loop (preconditioned None).
Proof.
  repeat split; try reflexivity; vm_compute; discriminate.
Defined.

(* X1 at the 2x2 identity *)
Lemma cg_status_sound_witness :
  1 <= budget identity2 /\
  exists st : cg_state,
    snd (cg_iterate (arg_A identity2) (arg_M identity2) (arg_callback identity2)
           (budget identity2)
           (effective_tolerance (arg_tol identity2) (arg_atol identity2)
              (norm (rhs identity2)))
           (rhs identity2) (guess identity2)) = Returns st /\
    snd (cg identity2) =
    Returns (st_x st,
             if rleb (norm (st_r st))
                  (effective_tolerance (arg_tol identity2) (arg_atol identity2)
                     (norm (rhs identity2)))
             then 0 else budget identity2).
Proof.
  split; [vm_compute; discriminate|].
  apply (@cg_status_sound lib identity2).
  - reflexivity.
  - vm_compute. discriminate.
  - vm_compute. discriminate.
Defined.

(* X2 at the failing input of C1 *)
Lemma gmres_status_zero_past_budget_witness :
  snd (gmres_call_loop shift_restart2) = Returns ([0; 0; 0]%float, 1%float, 4) /\
  4 <> budget shift_restart2 /\
  snd (gmres shift_restart2) = Returns ([0; 0; 0]%float, 0).
Proof.
  split; [vm_compute; reflexivity | split; [vm_compute; discriminate|]].
  apply (@gmres_status_zero_past_budget lib shift_restart2 [0; 0; 0]%float
           1%float 4).
  - exact reaches_loop_shift.
  - vm_compute. reflexivity.
  - vm_compute. discriminate.
Defined.

(* X3 at A = [[2]], M = [[0.5]]: restart = 1 divides maxiter = 10 *)
Lemma gmres_status_sound_on_multiples_witness :
  (gmres_restart (preconditioned None) | budget (preconditioned None)) /\
  snd (gmres (preconditioned None)) =
  Returns ([2%float],
           if rleb 0%float (gmres_tol (preconditioned None))
           then 0 else budget (preconditioned None)).
Proof.
  assert (D : (gmres_restart (preconditioned None) | budget (preconditioned None)))
    by (exists 10; reflexivity).
  split; [exact D|].
  apply (@gmres_status_sound_on_multiples lib (preconditioned None)
           [2%float] 0%float 1).
  - exact reaches_loop_preconditioned.
  - vm_compute. discriminate.
  - vm_compute. discriminate.
  - exact D.
  - vm_compute. reflexivity.
Defined.

(* X6 at A = [[2]], M = [[0.5]], b = [4]: one iteration, A applied twice and
   M once *)
Lemma cg_application_counts_witness :
  count_matvec (fst (cg (preconditioned None))) = 2%nat /\
  count_psolve (fst (cg (preconditioned None))) = 1%nat /\
  exists st : cg_state,
    snd (cg_iterate (arg_A (preconditioned None)) (arg_M (preconditioned None))
           (arg_callback (preconditioned None)) (budget (preconditioned None))
           (cg_atol (arg_tol (preconditioned None))
              (arg_atol (preconditioned None))
              (norm (rhs (preconditioned None))))
           (rhs (preconditioned None)) (guess (preconditioned None)))
    = Returns st /\
    Z.of_nat (count_matvec (fst (cg (preconditioned None)))) = st_iters st + 1 /\
    Z.of_nat (count_psolve (fst (cg (preconditioned None))))
    = Z.of_nat (per_pass (arg_M (preconditioned None))) * st_iters st.
Proof.
  split; [vm_compute; reflexivity | split; [vm_compute; reflexivity|]].
  apply (@cg_application_counts lib (preconditioned None)).
  - reflexivity.
  - vm_compute. discriminate.
Defined.

(* X7 at the call started from the solution: r0 = 0, and cg still runs an
   iteration, whose 0 / 0 makes the iterate a NaN *)
Lemma cg_runs_one_iteration_witness :
  norm (st_r (cg_start (arg_A exact_guess) (rhs exact_guess) (guess exact_guess)))
  = 0%float /\
  iterates (fst (cg exact_guess)) <> [] /\
  exists st : cg_state,
    snd (cg_iterate (arg_A exact_guess) (arg_M exact_guess)
           (arg_callback exact_guess) (budget exact_guess)
           (cg_atol (arg_tol exact_guess) (arg_atol exact_guess)
              (norm (rhs exact_guess)))
           (rhs exact_guess) (guess exact_guess)) = Returns st /\
    1 <= st_iters st /\
    hd_error (iterates (fst (cg exact_guess)))
    = Some (it_x (cg_spec_step (arg_A exact_guess) (arg_M exact_guess) true
                    (cg_spec_start (arg_A exact_guess) (rhs exact_guess)
                       (guess exact_guess)))).
Proof.
  split; [vm_compute; reflexivity | split; [vm_compute; discriminate|]].
  apply (@cg_runs_one_iteration lib exact_guess).
  - reflexivity.
  - vm_compute. discriminate.
  - vm_compute. discriminate.
Defined.

(* X8 at A = [[2]], b = [4], maxiter = -1 *)
Lemma cg_negative_budget_returns_guess_witness :
  budget budget_negative < 0 /\
  cg budget_negative = ([EvMatvec [0%float]], Returns ([0%float], 0)).
Proof.
  split; [reflexivity|].
  apply (@cg_negative_budget_returns_guess lib budget_negative).
  - reflexivity.
  - vm_compute. discriminate.
  - reflexivity.
Defined.

(* X9 at the cyclic shift with restart = 2, maxiter = 3: three boundaries,
   two cycles, A applied 3 + 4 times *)
Lemma gmres_application_counts_witness :
  length (cycles (fst (gmres shift_restart2))) = 3%nat /\
  4 = gmres_restart shift_restart2
      * (Z.of_nat (length (cycles (fst (gmres shift_restart2)))) - 1) /\
  Z.of_nat (count_matvec (fst (gmres shift_restart2)))
  = Z.of_nat (length (cycles (fst (gmres shift_restart2)))) + 4 /\
  Z.of_nat (count_psolve (fst (gmres shift_restart2)))
  = Z.of_nat (per_pass (arg_M shift_restart2))
    * (Z.of_nat (length (cycles (fst (gmres shift_restart2)))) + 4).
Proof.
  split; [vm_compute; reflexivity|].
  apply (@gmres_application_counts lib shift_restart2 [0; 0; 0]%float
           1%float 4).
  - exact reaches_loop_shift.
  - vm_compute. reflexivity.
Defined.

Lemma reaches_loop_exact_guess : reaches_loop exact_guess.
Proof.
  repeat split; try reflexivity; vm_compute; discriminate.
Defined.

Lemma reaches_loop_budget_zero : reaches_loop budget_zero.
Proof.
  repeat split; try reflexivity; vm_compute; discriminate.
Defined.

(* X10, at the call started from the solution and at maxiter = 0, where the
   residual norm 4 is above the tolerance and the status still 0 *)
Lemma gmres_first_check_breaks_witness :
  snd (gmres exact_guess) = Returns ([2%float], 0) /\
  count_matvec (fst (gmres exact_guess)) = 1%nat /\
  snd (gmres budget_zero) = Returns ([0%float], 0) /\
  cycles (fst (gmres budget_zero)) = [([0], [0], 4)]%float /\
  rleb 4%float (gmres_tol budget_zero) = false.
Proof.
  destruct (@gmres_first_check_breaks lib exact_guess reaches_loop_exact_guess)
    as (H1 & _ & H2); [left; vm_compute; reflexivity|].
  destruct (@gmres_first_check_breaks lib budget_zero reaches_loop_budget_zero)
    as (H3 & H4 & _); [right; vm_compute; discriminate|].
  split; [exact H1 | split; [exact H2 | split; [exact H3 | split]]].
  - exact H4.
  - vm_compute. reflexivity.
Defined.

Lemma cols_gemvH_length (V : list vec) (u : vec) :
  length (gemvH V u) = length V.
Proof. apply length_map. Defined.

(* X11 on the cyclic shift with restart = 2, from the column e1 *)
Lemma arnoldi_builds_hessenberg_system_witness :
  exists V H : list vec,
    snd (arnoldi (Z.to_nat 2) 0 (arg_A shift_restart2) None 2 [[1; 0; 0]%float] [])
    = Returns (V, H) /\
    length V = Z.to_nat 2 /\
    length H = Z.to_nat 2 /\
    Forall (fun c => length c = S (Z.to_nat 2)) H.
Proof.
  apply (@arnoldi_builds_hessenberg_system lib (arg_A shift_restart2) None 2
           cols_gemvH_length [1; 0; 0]%float).
  vm_compute. discriminate.
Defined.

(* X12 at A = [[2]], b = [4], no callback, callback_type = 'residual' *)
Lemma gmres_checks_callback_type_without_callback_witness :
  arg_callback unknown_callback_type = false /\
  gmres unknown_callback_type = ([], Raises (ValueError_callback_type "residual")).
Proof.
  split; [reflexivity|].
  apply (@gmres_checks_callback_type_without_callback lib unknown_callback_type);
    try reflexivity.
  vm_compute. discriminate.
Defined.

(* X13 at an x0 of shape (5,) together with an M of shape (2, 2), and at that
   M alone *)
Lemma guess_and_preconditioner_errors_witness :
  cg bad_guess = ([], Raises ValueError_x0) /\
  cg bad_preconditioner = ([], Raises ValueError_precond) /\
  gmres bad_preconditioner = ([], Raises ValueError_precond).
Proof.
  destruct (@guess_and_preconditioner_errors lib bad_guess eq_refl)
    as (H1 & _); [vm_compute; discriminate|].
  destruct (@guess_and_preconditioner_errors lib bad_preconditioner eq_refl)
    as (_ & H2); [vm_compute; discriminate|].
  destruct (H2 eq_refl eq_refl) as (H3 & H4).
  split; [exact (H1 eq_refl) | split; [exact H3 | exact (H4 eq_refl eq_refl)]].
Defined.

(* X14 at the 2x2 identity *)
Lemma status_is_zero_or_budget_witness :
  snd (cg identity2) = Returns ([3; 4]%float, 0) /\
  (0 = 0 \/ 0 = budget identity2).
Proof.
  assert (H : snd (cg identity2) = Returns ([3; 4]%float, 0))
    by (vm_compute; reflexivity).
  split; [exact H|].
  exact (@status_is_zero_or_budget lib identity2 [3; 4]%float 0 (or_introl H)).
Defined.

(* X16 on a vector of 7 entries with pad_width = (2, 2) *)
Lemma padwithtens_pads_both_ends_witness :
  _padwithtens 10 [0; 1; 2; 3; 4; 5; 6] (2, 2) = [10; 10; 2; 3; 4; 10; 10].
Proof.
  rewrite (@padwithtens_pads_both_ends Z 10 [0; 1; 2; 3; 4; 5; 6] 2 2).
  - reflexivity.
  - lia.
  - lia.
  - vm_compute. discriminate.
Defined.

End Witnesses.
